(** * distkv: a shallow embedding of the storage engine, the wire protocol,
      the command dispatcher and the snapshot code, with the properties
      of the specification settled against it.

    Conventions of the embedding.
    - [std::string] is [string]; a byte is an [ascii].
    - [std::unordered_map<std::string, std::shared_ptr<Value>>] is a
      [gmap string Value]; iteration order is the one of [map_to_list].
    - [std::vector<std::string>] is [list string];
      [std::unordered_set<std::string>] is [gset string], iterated in the
      order of [elements].
    - [std::time(nullptr)] is a parameter [now : Z] of every operation that
      reads the clock.  [time_t] values are unbounded integers.
    - A C++ [int] is a [Z]; the narrowing casts of the source are written
      out with [static_cast_int].  Container sizes ([size_t]) are [nat].
    - A mutation through a [shared_ptr<Value>] obtained from the map is an
      update of the map entry.
    - The reader-writer lock is not modelled: every operation runs alone. *)

From Stdlib Require Import ZArith Ascii String DecimalString.
From Stdlib Require DecimalPos.
From stdpp Require Import gmap strings list fin_maps.

Local Open Scope Z_scope.

(** ** Results of code that can leave defined behaviour *)

(** [Undefined] stands for an execution that reads outside a container or
    uses a variable a failed stream read left unset. *)
Inductive outcome (A : Type) : Type :=
| Returns (a : A)
| Undefined.
Arguments Returns {A} a.
Arguments Undefined {A}.

(** [outcome] is a monad; an undefined step makes the whole run undefined. *)
#[global] Instance outcome_ret : MRet outcome := λ A a, Returns a.
#[global] Instance outcome_bind : MBind outcome := λ A B f m,
  match m with
  | Returns a => f a
  | Undefined => Undefined
  end.

(** [static_cast<int>(z)] on a two's complement 32-bit [int]. *)
Definition static_cast_int (z : Z) : Z :=
  (z + 2147483648) mod 4294967296 - 2147483648.

(** ** include/storage.h: the value model *)

Module ValueModel.

Inductive ValueType : Set := STRING | LIST | SET.

#[global] Instance ValueType_eq_dec : EqDecision ValueType.
Proof. solve_decision. Defined.

(** The erased [shared_ptr<void> data] together with what it points to. *)
Inductive Payload : Type :=
| StringData (s : string)
| ListData (l : list string)
| SetData (s : gset string).

(** [struct Value]; the [type] tag is read off the payload, which every
    construction site of the source keeps in step with it. *)
Record Value : Type := mkValue { data : Payload; expires_at : Z }.

Definition type (v : Value) : ValueType :=
  match data v with
  | StringData _ => STRING
  | ListData _ => LIST
  | SetData _ => SET
  end.

(** [Value::is_expired], with the clock reading as argument. *)
Definition is_expired (now : Z) (v : Value) : bool :=
  if expires_at v =? -1 then false else now >? expires_at v.

End ValueModel.
Export ValueModel.

(** ** src/storage.cpp *)

Module Storage.

(** The private member [data_]. *)
Abbreviation t := (gmap string Value).

(** [Storage::cleanup_expired] *)
Definition cleanup_expired (now : Z) (key : string) (st : t) : t :=
  match st !! key with
  | Some v => if is_expired now v then delete key st else st
  | None => st
  end.

(** The payload [get_or_create] gives a new entry. *)
Definition fresh_payload (ty : ValueType) : Payload :=
  match ty with
  | LIST => ListData []
  | SET => SetData ∅
  | STRING => StringData ""
  end.

(** [Storage::get_or_create]: [None] is the [nullptr] result. *)
Definition get_or_create (key : string) (ty : ValueType) (st : t)
  : option Value * t :=
  match st !! key with
  | None =>
      let val := mkValue (fresh_payload ty) (-1) in
      (Some val, <[key := val]> st)
  | Some v =>
      if decide (type v ≠ ty) then (None, st) else (Some v, st)
  end.

(** *** String operations *)

Definition set (key value : string) (st : t) : bool * t :=
  (true, <[key := mkValue (StringData value) (-1)]> st).

Definition get (now : Z) (key : string) (st : t) : option string * t :=
  match st !! key with
  | None => (None, st)
  | Some val =>
      if is_expired now val then (None, cleanup_expired now key st)
      else match data val with
           | StringData s => (Some s, st)
           | _ => (None, st)
           end
  end.

(** *** Generic operations *)

Definition del (key : string) (st : t) : bool * t :=
  (bool_decide (is_Some (st !! key)), delete key st).

Definition exists_ (now : Z) (key : string) (st : t) : bool * t :=
  match st !! key with
  | None => (false, st)
  | Some v =>
      if is_expired now v then (false, cleanup_expired now key st)
      else (true, st)
  end.

Definition expire (now : Z) (key : string) (seconds : Z) (st : t)
  : bool * t :=
  match st !! key with
  | None => (false, st)
  | Some v => (true, <[key := mkValue (data v) (now + seconds)]> st)
  end.

Definition ttl (now : Z) (key : string) (st : t) : Z :=
  match st !! key with
  | None => -2
  | Some val =>
      if is_expired now val then -2
      else if expires_at val =? -1 then -1
      else
        let remaining := static_cast_int (expires_at val - now) in
        if remaining >? 0 then remaining else -2
  end.

(** *** List operations *)

Definition lpush (key value : string) (st : t) : bool * t :=
  match get_or_create key LIST st with
  | (None, st') => (false, st')
  | (Some val, st') =>
      match data val with
      | ListData l =>
          (true, <[key := mkValue (ListData (value :: l)) (expires_at val)]> st')
      | _ => (false, st')
      end
  end.

Definition rpush (key value : string) (st : t) : bool * t :=
  match get_or_create key LIST st with
  | (None, st') => (false, st')
  | (Some val, st') =>
      match data val with
      | ListData l =>
          (true, <[key := mkValue (ListData (l ++ [value])) (expires_at val)]> st')
      | _ => (false, st')
      end
  end.

Definition lpop (key : string) (st : t) : option string * t :=
  match st !! key with
  | None => (None, st)
  | Some v =>
      match data v with
      | ListData l =>
          match l with
          | [] => (None, st)
          | front :: rest =>
              (Some front, <[key := mkValue (ListData rest) (expires_at v)]> st)
          end
      | _ => (None, st)
      end
  end.

Definition rpop (key : string) (st : t) : option string * t :=
  match st !! key with
  | None => (None, st)
  | Some v =>
      match data v with
      | ListData l =>
          match l with
          | [] => (None, st)
          | _ :: _ =>
              (Some (List.last l ""),
               <[key := mkValue (ListData (removelast l)) (expires_at v)]> st)
          end
      | _ => (None, st)
      end
  end.

(** The range constructor [std::vector<std::string>(begin() + first,
    begin() + last)]: defined only for iterators inside
    [[begin(), end()]] with [first <= last]. *)
Definition vector_range (l : list string) (first last : Z)
  : outcome (list string) :=
  if (0 <=? first) && (first <=? last) && (last <=? Z.of_nat (length l))
  then Returns (take (Z.to_nat (last - first)) (drop (Z.to_nat first) l))
  else Undefined.

(** The index arithmetic of [Storage::lrange] on a list of [size]
    elements: the pair [(start, stop)] after adjustment and clamping. *)
Definition lrange_bounds (size start stop : Z) : Z * Z :=
  let start := if start <? 0 then start + size else start in
  let stop := if stop <? 0 then stop + size else stop in
  let start := Z.max 0 (Z.min start (size - 1)) in
  let stop := Z.max 0 (Z.min stop (size - 1)) in
  (start, stop).

Definition lrange (key : string) (start stop : Z) (st : t)
  : outcome (option (list string)) :=
  match st !! key with
  | None => Returns None
  | Some v =>
      match data v with
      | ListData l =>
          let size := static_cast_int (Z.of_nat (length l)) in
          let '(start, stop) := lrange_bounds size start stop in
          if start >? stop then Returns (Some [])
          else
            match vector_range l start (stop + 1) with
            | Returns result => Returns (Some result)
            | Undefined => Undefined
            end
      | _ => Returns None
      end
  end.

Definition llen (key : string) (st : t) : Z :=
  match st !! key with
  | None => 0
  | Some v =>
      match data v with
      | ListData l => static_cast_int (Z.of_nat (length l))
      | _ => 0
      end
  end.

(** *** Set operations *)

Definition sadd (key member : string) (st : t) : bool * t :=
  match get_or_create key SET st with
  | (None, st') => (false, st')
  | (Some val, st') =>
      match data val with
      | SetData s =>
          (bool_decide (member ∉ s),
           <[key := mkValue (SetData ({[member]} ∪ s)) (expires_at val)]> st')
      | _ => (false, st')
      end
  end.

Definition srem (key member : string) (st : t) : bool * t :=
  match st !! key with
  | None => (false, st)
  | Some v =>
      match data v with
      | SetData s =>
          (bool_decide (member ∈ s),
           <[key := mkValue (SetData (s ∖ {[member]})) (expires_at v)]> st)
      | _ => (false, st)
      end
  end.

Definition sismember (key member : string) (st : t) : bool :=
  match st !! key with
  | None => false
  | Some v =>
      match data v with
      | SetData s => bool_decide (member ∈ s)
      | _ => false
      end
  end.

Definition smembers (key : string) (st : t) : option (gset string) :=
  match st !! key with
  | None => None
  | Some v =>
      match data v with
      | SetData s => Some s
      | _ => None
      end
  end.

Definition scard (key : string) (st : t) : Z :=
  match st !! key with
  | None => 0
  | Some v =>
      match data v with
      | SetData s => static_cast_int (Z.of_nat (size s))
      | _ => 0
      end
  end.

(** *** Utility *)

Definition dbsize (st : t) : nat := size st.

Definition clear (st : t) : t := ∅.

Definition keys (now : Z) (st : t) : list string :=
  (filter (λ kv, is_expired now kv.2 = false) (map_to_list st)).*1.

(** *** Persistence support *)

Definition get_snapshot (st : t) : t := st.

Definition restore_snapshot (snapshot : t) (st : t) : t := snapshot.

End Storage.

(** ** include/protocol.h and src/protocol.cpp *)

Module Protocol.

Inductive CommandType : Set :=
| CMD_SET | CMD_GET
| CMD_DEL | CMD_EXISTS | CMD_EXPIRE | CMD_TTL | CMD_KEYS | CMD_DBSIZE
| CMD_LPUSH | CMD_RPUSH | CMD_LPOP | CMD_RPOP | CMD_LRANGE | CMD_LLEN
| CMD_SADD | CMD_SREM | CMD_SISMEMBER | CMD_SMEMBERS | CMD_SCARD
| CMD_PING | CMD_QUIT
| CMD_UNKNOWN.

#[global] Instance CommandType_eq_dec : EqDecision CommandType.
Proof. solve_decision. Defined.

Inductive StatusCode : Set :=
| OK | ERROR | NOT_FOUND | WRONG_TYPE | INVALID_ARGS.

#[global] Instance StatusCode_eq_dec : EqDecision StatusCode.
Proof. solve_decision. Defined.

Record Request : Type := mkRequest { command : CommandType; args : list string }.

Record Response : Type := mkResponse { status : StatusCode; data : list string }.

(** The four constructors of [Response] that take a status. *)
Definition Response_status (s : StatusCode) : Response := mkResponse s [].
Definition Response_string (s : StatusCode) (d : string) : Response := mkResponse s [d].
Definition Response_vector (s : StatusCode) (d : list string) : Response := mkResponse s d.

Definition CR : ascii := ascii_of_nat 13.
Definition LF : ascii := ascii_of_nat 10.
Definition CRLF : string := String CR (String LF EmptyString).

(** [operator<<] of an unsigned size and [std::to_string] of an [int]. *)
Definition size_to_string (n : nat) : string :=
  NilZero.string_of_uint (Nat.to_uint n).
Definition to_string (z : Z) : string :=
  NilZero.string_of_int (Z.to_int z).

(** One step of the loop that writes the items of an array reply. *)
Definition write_bulk (oss item : string) : string :=
  oss +:+ "$" +:+ size_to_string (String.length item) +:+ CRLF +:+ item +:+ CRLF.

(** [Protocol::serialize_response]; the [ostringstream] is the string
    written so far. *)
Definition serialize_response (response : Response) : string :=
  match status response with
  | OK =>
      match data response with
      | [] => "+OK" +:+ CRLF
      | [str] =>
          "$" +:+ size_to_string (String.length str) +:+ CRLF +:+ str +:+ CRLF
      | items =>
          fold_left write_bulk items
            ("*" +:+ size_to_string (length items) +:+ CRLF)
      end
  | NOT_FOUND => "$-1" +:+ CRLF
  | ERROR =>
      "-ERR " +:+
      match data response with
      | d0 :: _ => d0
      | [] => "unknown error"
      end +:+ CRLF
  | WRONG_TYPE =>
      "-WRONGTYPE Operation against a key holding the wrong kind of value" +:+ CRLF
  | INVALID_ARGS => "-ERR wrong number of arguments" +:+ CRLF
  end.

(** [Protocol::string_to_command] *)
Definition string_to_command (cmd : string) : CommandType :=
  if String.eqb cmd "SET" then CMD_SET
  else if String.eqb cmd "GET" then CMD_GET
  else if String.eqb cmd "DEL" then CMD_DEL
  else if String.eqb cmd "EXISTS" then CMD_EXISTS
  else if String.eqb cmd "EXPIRE" then CMD_EXPIRE
  else if String.eqb cmd "TTL" then CMD_TTL
  else if String.eqb cmd "KEYS" then CMD_KEYS
  else if String.eqb cmd "DBSIZE" then CMD_DBSIZE
  else if String.eqb cmd "LPUSH" then CMD_LPUSH
  else if String.eqb cmd "RPUSH" then CMD_RPUSH
  else if String.eqb cmd "LPOP" then CMD_LPOP
  else if String.eqb cmd "RPOP" then CMD_RPOP
  else if String.eqb cmd "LRANGE" then CMD_LRANGE
  else if String.eqb cmd "LLEN" then CMD_LLEN
  else if String.eqb cmd "SADD" then CMD_SADD
  else if String.eqb cmd "SREM" then CMD_SREM
  else if String.eqb cmd "SISMEMBER" then CMD_SISMEMBER
  else if String.eqb cmd "SMEMBERS" then CMD_SMEMBERS
  else if String.eqb cmd "SCARD" then CMD_SCARD
  else if String.eqb cmd "PING" then CMD_PING
  else if String.eqb cmd "QUIT" then CMD_QUIT
  else CMD_UNKNOWN.

(** *** [std::stoi] as the dispatcher uses it *)

Definition isspace (c : ascii) : bool :=
  let n := nat_of_ascii c in
  ((9 <=? n) && (n <=? 13))%nat || (n =? 32)%nat.

Definition digit_value (c : ascii) : option Z :=
  let n := nat_of_ascii c in
  if ((48 <=? n) && (n <=? 57))%nat then Some (Z.of_nat n - 48) else None.

Fixpoint skip_space (s : string) : string :=
  match s with
  | String c s' => if isspace c then skip_space s' else s
  | EmptyString => s
  end.

Fixpoint read_digits (s : string) (acc : Z) : Z :=
  match s with
  | String c s' =>
      match digit_value c with
      | Some d => read_digits s' (acc * 10 + d)
      | None => acc
      end
  | EmptyString => acc
  end.

(** [None] is a thrown [std::invalid_argument] or [std::out_of_range]. *)
Definition stoi (s : string) : option Z :=
  let s := skip_space s in
  let '(negative, s) :=
    match s with
    | String "-" s' => (true, s')
    | String "+" s' => (false, s')
    | _ => (false, s)
    end in
  match s with
  | String c _ =>
      match digit_value c with
      | Some _ =>
          let magnitude := read_digits s 0 in
          let v := if negative : bool then - magnitude else magnitude in
          if (-2147483648 <=? v) && (v <=? 2147483647) then Some v else None
      | None => None
      end
  | EmptyString => None
  end.

(** *** [Protocol::command_to_string] *)

Definition command_to_string (cmd : CommandType) : string :=
  match cmd with
  | CMD_SET => "SET"
  | CMD_GET => "GET"
  | CMD_DEL => "DEL"
  | CMD_EXISTS => "EXISTS"
  | CMD_EXPIRE => "EXPIRE"
  | CMD_TTL => "TTL"
  | CMD_KEYS => "KEYS"
  | CMD_DBSIZE => "DBSIZE"
  | CMD_LPUSH => "LPUSH"
  | CMD_RPUSH => "RPUSH"
  | CMD_LPOP => "LPOP"
  | CMD_RPOP => "RPOP"
  | CMD_LRANGE => "LRANGE"
  | CMD_LLEN => "LLEN"
  | CMD_SADD => "SADD"
  | CMD_SREM => "SREM"
  | CMD_SISMEMBER => "SISMEMBER"
  | CMD_SMEMBERS => "SMEMBERS"
  | CMD_SCARD => "SCARD"
  | CMD_PING => "PING"
  | CMD_QUIT => "QUIT"
  | CMD_UNKNOWN => "UNKNOWN"
  end.

(** *** [Protocol::parse_request] *)

(** [std::toupper] in the "C" locale: only the letters a to z change. *)
Definition toupper (c : ascii) : ascii :=
  let n := nat_of_ascii c in
  if ((97 <=? n) && (n <=? 122))%nat then ascii_of_nat (n - 32) else c.

(** [std::transform(begin, end, begin, toupper)] *)
Fixpoint transform_toupper (s : string) : string :=
  match s with
  | EmptyString => EmptyString
  | String c s' => String (toupper c) (transform_toupper s')
  end.

(** The strings that successive [iss >> token] extractions yield from the
    stream [s]: every extraction skips white space and reads up to the next
    white space; [cur] is the token being read.  The extraction fails, and
    the sequence ends, when only white space is left. *)
Fixpoint extract_tokens (cur : string) (s : string) : list string :=
  match s with
  | EmptyString =>
      match cur with EmptyString => [] | _ => [cur] end
  | String c s' =>
      if isspace c then
        match cur with
        | EmptyString => extract_tokens EmptyString s'
        | _ => cur :: extract_tokens EmptyString s'
        end
      else extract_tokens (cur +:+ String c EmptyString) s'
  end.

Definition parse_request (input : string) : Request :=
  match extract_tokens EmptyString input with
  | [] => mkRequest CMD_UNKNOWN []
  | cmd_str :: args =>
      mkRequest (string_to_command (transform_toupper cmd_str)) args
  end.

End Protocol.

(** ** src/server.cpp: the command dispatcher *)

Module Server.
Import Protocol.

(** The member functions of [Storage] that the dispatcher calls on
    [storage_], with their arguments. *)
Inductive StorageCall : Type :=
| call_set (key value : string)
| call_get (key : string)
| call_del (key : string)
| call_exists (key : string)
| call_expire (key : string) (seconds : Z)
| call_ttl (key : string)
| call_keys
| call_dbsize
| call_lpush (key value : string)
| call_rpush (key value : string)
| call_lpop (key : string)
| call_rpop (key : string)
| call_lrange (key : string) (start stop : Z)
| call_llen (key : string)
| call_sadd (key member : string)
| call_srem (key member : string)
| call_sismember (key member : string)
| call_smembers (key : string)
| call_scard (key : string).

(** A dispatcher computation: it threads the store behind [storage_] and
    records, in order, every call it makes on it. *)
Definition Exec (A : Type) : Type :=
  Storage.t → outcome (A * Storage.t * list StorageCall).

#[global] Instance Exec_ret : MRet Exec := λ A a st, Returns (a, st, []).
#[global] Instance Exec_bind : MBind Exec := λ A B f m st,
  match m st with
  | Returns (a, st', calls) =>
      match f a st' with
      | Returns (b, st'', calls') => Returns (b, st'', calls ++ calls')
      | Undefined => Undefined
      end
  | Undefined => Undefined
  end.

(** A call of a member function that may change the store. *)
Definition invoke {A} (c : StorageCall) (op : Storage.t → A * Storage.t)
  : Exec A :=
  λ st, let '(a, st') := op st in Returns (a, st', [c]).

(** A call of a member function that only reads the store. *)
Definition query {A} (c : StorageCall) (op : Storage.t → A) : Exec A :=
  λ st, Returns (op st, st, [c]).

(** A read-only call whose behaviour may be undefined. *)
Definition query_partial {A} (c : StorageCall)
    (op : Storage.t → outcome A) : Exec A :=
  λ st, match op st with
        | Returns a => Returns (a, st, [c])
        | Undefined => Undefined
        end.

Definition bool_reply (b : bool) : Response :=
  Response_string OK (if b then "1" else "0").

(** [Server::execute_command].  [req.args[i]] is [arg req i]; every use
    sits behind the size test of its case. *)
Definition arg (req : Request) (i : nat) : string := nth i (args req) "".
Definition nargs (req : Request) : nat := length (args req).

Definition execute_command (now : Z) (req : Request) : Exec Response :=
  match command req with
  | CMD_PING => mret (Response_string OK "PONG")
  | CMD_SET =>
      if decide (nargs req ≠ 2%nat) then mret (Response_status INVALID_ARGS)
      else
        _ ← invoke (call_set (arg req 0) (arg req 1))
              (Storage.set (arg req 0) (arg req 1));
        mret (Response_status OK)
  | CMD_GET =>
      if decide (nargs req ≠ 1%nat) then mret (Response_status INVALID_ARGS)
      else
        val ← invoke (call_get (arg req 0)) (Storage.get now (arg req 0));
        match val with
        | Some s => mret (Response_string OK s)
        | None => mret (Response_status NOT_FOUND)
        end
  | CMD_DEL =>
      if decide (nargs req ≠ 1%nat) then mret (Response_status INVALID_ARGS)
      else
        deleted ← invoke (call_del (arg req 0)) (Storage.del (arg req 0));
        mret (bool_reply deleted)
  | CMD_EXISTS =>
      if decide (nargs req ≠ 1%nat) then mret (Response_status INVALID_ARGS)
      else
        found ← invoke (call_exists (arg req 0))
                  (Storage.exists_ now (arg req 0));
        mret (bool_reply found)
  | CMD_EXPIRE =>
      if decide (nargs req ≠ 2%nat) then mret (Response_status INVALID_ARGS)
      else
        match stoi (arg req 1) with
        | Some seconds =>
            success ← invoke (call_expire (arg req 0) seconds)
                        (Storage.expire now (arg req 0) seconds);
            mret (bool_reply success)
        | None => mret (Response_string ERROR "invalid timeout value")
        end
  | CMD_TTL =>
      if decide (nargs req ≠ 1%nat) then mret (Response_status INVALID_ARGS)
      else
        ttl ← query (call_ttl (arg req 0)) (Storage.ttl now (arg req 0));
        mret (Response_string OK (to_string ttl))
  | CMD_KEYS =>
      keys ← query call_keys (Storage.keys now);
      mret (Response_vector OK keys)
  | CMD_DBSIZE =>
      size ← query call_dbsize Storage.dbsize;
      mret (Response_string OK (size_to_string size))
  | CMD_LPUSH =>
      if decide (nargs req ≠ 2%nat) then mret (Response_status INVALID_ARGS)
      else
        success ← invoke (call_lpush (arg req 0) (arg req 1))
                    (Storage.lpush (arg req 0) (arg req 1));
        if negb success then mret (Response_status WRONG_TYPE)
        else
          len ← query (call_llen (arg req 0)) (Storage.llen (arg req 0));
          mret (Response_string OK (to_string len))
  | CMD_RPUSH =>
      if decide (nargs req ≠ 2%nat) then mret (Response_status INVALID_ARGS)
      else
        success ← invoke (call_rpush (arg req 0) (arg req 1))
                    (Storage.rpush (arg req 0) (arg req 1));
        if negb success then mret (Response_status WRONG_TYPE)
        else
          len ← query (call_llen (arg req 0)) (Storage.llen (arg req 0));
          mret (Response_string OK (to_string len))
  | CMD_LPOP =>
      if decide (nargs req ≠ 1%nat) then mret (Response_status INVALID_ARGS)
      else
        val ← invoke (call_lpop (arg req 0)) (Storage.lpop (arg req 0));
        match val with
        | Some s => mret (Response_string OK s)
        | None => mret (Response_status NOT_FOUND)
        end
  | CMD_RPOP =>
      if decide (nargs req ≠ 1%nat) then mret (Response_status INVALID_ARGS)
      else
        val ← invoke (call_rpop (arg req 0)) (Storage.rpop (arg req 0));
        match val with
        | Some s => mret (Response_string OK s)
        | None => mret (Response_status NOT_FOUND)
        end
  | CMD_LRANGE =>
      if decide (nargs req ≠ 3%nat) then mret (Response_status INVALID_ARGS)
      else
        match stoi (arg req 1) with
        | Some start =>
            match stoi (arg req 2) with
            | Some stop =>
                list ← query_partial (call_lrange (arg req 0) start stop)
                         (Storage.lrange (arg req 0) start stop);
                match list with
                | Some items => mret (Response_vector OK items)
                | None => mret (Response_status NOT_FOUND)
                end
            | None => mret (Response_string ERROR "invalid index")
            end
        | None => mret (Response_string ERROR "invalid index")
        end
  | CMD_LLEN =>
      if decide (nargs req ≠ 1%nat) then mret (Response_status INVALID_ARGS)
      else
        len ← query (call_llen (arg req 0)) (Storage.llen (arg req 0));
        mret (Response_string OK (to_string len))
  | CMD_SADD =>
      if decide (nargs req ≠ 2%nat) then mret (Response_status INVALID_ARGS)
      else
        added ← invoke (call_sadd (arg req 0) (arg req 1))
                  (Storage.sadd (arg req 0) (arg req 1));
        mret (bool_reply added)
  | CMD_SREM =>
      if decide (nargs req ≠ 2%nat) then mret (Response_status INVALID_ARGS)
      else
        removed ← invoke (call_srem (arg req 0) (arg req 1))
                    (Storage.srem (arg req 0) (arg req 1));
        mret (bool_reply removed)
  | CMD_SISMEMBER =>
      if decide (nargs req ≠ 2%nat) then mret (Response_status INVALID_ARGS)
      else
        is_member ← query (call_sismember (arg req 0) (arg req 1))
                      (Storage.sismember (arg req 0) (arg req 1));
        mret (bool_reply is_member)
  | CMD_SMEMBERS =>
      if decide (nargs req ≠ 1%nat) then mret (Response_status INVALID_ARGS)
      else
        members ← query (call_smembers (arg req 0))
                    (Storage.smembers (arg req 0));
        match members with
        | Some s => mret (Response_vector OK (elements s))
        | None => mret (Response_status NOT_FOUND)
        end
  | CMD_SCARD =>
      if decide (nargs req ≠ 1%nat) then mret (Response_status INVALID_ARGS)
      else
        card ← query (call_scard (arg req 0)) (Storage.scard (arg req 0));
        mret (Response_string OK (to_string card))
  | CMD_QUIT => mret (Response_string OK "Goodbye")
  | CMD_UNKNOWN => mret (Response_string ERROR "unknown command")
  end.

(** *** [Server::handle_client]: the command loop of one connection *)

(** The connection after a batch of lines: still open with the bytes of an
    unfinished line in [accumulated], or closed by QUIT. *)
Inductive connection : Type :=
| Open (accumulated : string)
| Closed.

(** [pos = s.find(LF)] with [s.substr(0, pos)] and [s.substr(pos + 1)];
    [None] is [npos]. *)
Fixpoint find_newline (s : string) : option (string * string) :=
  match s with
  | EmptyString => None
  | String c s' =>
      if Ascii.eqb c LF then Some (EmptyString, s')
      else
        match find_newline s' with
        | Some (line, rest) => Some (String c line, rest)
        | None => None
        end
  end.

(** [if (!line.empty() && line.back() == CR) line.pop_back()] *)
Fixpoint strip_cr (line : string) : string :=
  match line with
  | EmptyString => EmptyString
  | String c EmptyString => if Ascii.eqb c CR then EmptyString else line
  | String c line' => String c (strip_cr line')
  end.

(** What the loop does with one line cut off the accumulator: the response
    it sends, if any, and whether the connection goes on.  An empty line is
    skipped. *)
Definition handle_line (now : Z) (line : string) (st : Storage.t)
  : outcome (list string * bool * Storage.t) :=
  let line := strip_cr line in
  match line with
  | EmptyString => Returns ([], true, st)
  | _ =>
      let req := parse_request line in
      '(resp, st', _) ← execute_command now req st;
      let response_str := serialize_response resp in
      mret ([response_str], negb (bool_decide (command req = CMD_QUIT)), st')
  end.

(** The inner [while] loop of [handle_client] over the bytes of the
    accumulator that are still to be searched; [line] holds the bytes
    before them that belong to the line being searched.  The result lists
    the responses sent, in order.  The commands of one batch run at one
    clock reading; the [running_] flag and the results of [send] are not
    modelled. *)
Fixpoint process_lines (now : Z) (line : string) (accumulated : string)
    (st : Storage.t) : outcome (list string * connection * Storage.t) :=
  match accumulated with
  | EmptyString => Returns ([], Open line, st)
  | String c rest =>
      if Ascii.eqb c LF then
        '(sent, go_on, st') ← handle_line now line st;
        if go_on : bool then
          '(sent', conn, st'') ← process_lines now EmptyString rest st';
          mret (sent ++ sent', conn, st'')
        else mret (sent, Closed, st')
      else process_lines now (line +:+ String c EmptyString) rest st
  end.

(** [accumulated += buffer] after [buffer[bytes_read] = 0]: the bytes of
    the chunk up to its first zero byte. *)
Fixpoint c_str (buffer : string) : string :=
  match buffer with
  | EmptyString => EmptyString
  | String c buffer' =>
      if Ascii.eqb c zero then EmptyString else String c (c_str buffer')
  end.

(** One round of the outer loop of [handle_client] for a chunk that
    [recv] delivered. *)
Definition receive (now : Z) (chunk : string) (accumulated : string)
    (st : Storage.t) : outcome (list string * connection * Storage.t) :=
  process_lines now EmptyString (accumulated +:+ c_str chunk) st.

End Server.

(** ** src/persistence.cpp: the snapshot file *)

Module Persistence.

(** The file is the string of its bytes.  [size_t] and [time_t] are
    eight bytes wide and stored least significant byte first, as on the
    hosts the source is built for. *)

Definition byte_of (n : Z) : ascii := ascii_of_N (Z.to_N (n mod 256)).

(** [os.write(reinterpret_cast<const char*>(&n), width)] *)
Fixpoint write_le (width : nat) (n : Z) : string :=
  match width with
  | O => EmptyString
  | S w => String (byte_of n) (write_le w (n / 256))
  end.

Definition write_size (n : nat) : string := write_le 8 (Z.of_nat n).
Definition write_time (t : Z) : string := write_le 8 t.

Definition type_byte (ty : ValueType) : Z :=
  match ty with STRING => 0 | LIST => 1 | SET => 2 end.

(** One step of the loops that write the items of a list or a set. *)
Definition write_item (os item : string) : string :=
  os +:+ write_size (String.length item) +:+ item.

(** [Persistence::serialize_value]; [os] is what the stream holds
    already. *)
Definition serialize_value (os : string) (value : Value) : string :=
  let os := os +:+ write_le 1 (type_byte (type value)) in
  let os := os +:+ write_time (expires_at value) in
  match data value with
  | StringData str => os +:+ write_size (String.length str) +:+ str
  | ListData l => fold_left write_item l (os +:+ write_size (length l))
  | SetData s =>
      fold_left write_item (elements s) (os +:+ write_size (size s))
  end.

(** The body of the loop of [save_snapshot] over the snapshot. *)
Definition save_entry (now : Z) (file : string) (entry : string * Value)
  : string :=
  let '(key, value) := entry in
  if is_expired now value then file
  else
    serialize_value
      (file +:+ write_size (String.length key) +:+ key) value.

(** [Persistence::save_snapshot]: the bytes written to the file. *)
Definition save_snapshot (now : Z) (storage : Storage.t) : string :=
  let snapshot := Storage.get_snapshot storage in
  let count := size snapshot in
  fold_left (save_entry now) (map_to_list snapshot) (write_size count).

(** The file is read through the stream [input] of the bytes still to
    come.  A read that meets the end of the file takes what is left and
    puts the stream in the failed state, in which every later read extracts
    nothing; the failed stream is the stream with no bytes left, which no
    read tells from it. *)

(** [is.read(buf, n)] into a variable of [n] bytes that was not
    initialised ([count], [key_len], [len], [type_byte]): the bytes read and
    the rest of the stream.  When fewer than [n] bytes are left the variable
    stays unset, and the code goes on to use it: the run is [Undefined]. *)
Fixpoint read (n : nat) (input : string) : outcome (string * string) :=
  match n with
  | O => Returns (EmptyString, input)
  | S n' =>
      match input with
      | EmptyString => Undefined
      | String c input' =>
          '(bytes, rest) ← read n' input';
          mret (String c bytes, rest)
      end
  end.

(** [n] bytes that all hold [fill]. *)
Fixpoint filled (fill : ascii) (n : nat) : string :=
  match n with
  | O => EmptyString
  | S n' => String fill (filled fill n')
  end.

(** [is.read(buf, n)] into a buffer of [n] bytes that all hold [fill]
    before the read: the bytes read, followed by the bytes of the buffer
    that a short read leaves as they were, and the rest of the stream. *)
Fixpoint read_buffer (fill : ascii) (n : nat) (input : string)
  : string * string :=
  match n with
  | O => (EmptyString, input)
  | S n' =>
      match input with
      | EmptyString => (filled fill n, EmptyString)
      | String c input' =>
          let '(bytes, rest) := read_buffer fill n' input' in
          (String c bytes, rest)
      end
  end.

Fixpoint decode_le (bytes : string) : Z :=
  match bytes with
  | EmptyString => 0
  | String c bytes' => Z.of_N (N_of_ascii c) + 256 * decode_le bytes'
  end.

Definition read_size (input : string) : outcome (nat * string) :=
  '(bytes, rest) ← read 8 input;
  mret (Z.to_nat (decode_le bytes), rest).

(** The read into [value->expires_at], which the constructor of [Value]
    has set to -1, all bits one. *)
Definition read_time (input : string) : outcome (Z * string) :=
  let '(bytes, rest) := read_buffer (ascii_of_nat 255) 8 input in
  let u := decode_le bytes in
  mret (if u <? 9223372036854775808 then u
        else u - 18446744073709551616, rest).

(** A length-prefixed string, as every key, string value and item is
    stored: the length goes into an unset [size_t], the bytes into a
    [std::string] of that length filled with zero bytes. *)
Definition read_string (input : string) : outcome (string * string) :=
  '(len, rest) ← read_size input;
  mret (read_buffer zero len rest).

(** The loops of [deserialize_value] that read [count] items. *)
Fixpoint read_items (count : nat) (input : string)
  : outcome (list string * string) :=
  match count with
  | O => Returns ([], input)
  | S count' =>
      '(item, rest) ← read_string input;
      '(items, rest') ← read_items count' rest;
      mret (item :: items, rest')
  end.

(** [Persistence::deserialize_value].  For a type byte outside the
    enumeration the source reads no payload and returns a [Value] that
    [load_snapshot] ignores: that is the [None] result. *)
Definition deserialize_value (input : string)
  : outcome (option Value * string) :=
  '(tag, rest) ← read 1 input;
  '(expiry, rest) ← read_time rest;
  let type_byte := decode_le tag in
  if type_byte =? 0 then
    '(str, rest) ← read_string rest;
    mret (Some (mkValue (StringData str) expiry), rest)
  else if type_byte =? 1 then
    '(count, rest) ← read_size rest;
    '(items, rest) ← read_items count rest;
    mret (Some (mkValue (ListData items) expiry), rest)
  else if type_byte =? 2 then
    '(count, rest) ← read_size rest;
    '(items, rest) ← read_items count rest;
    mret (Some (mkValue (SetData (list_to_set items)) expiry), rest)
  else mret (None, rest).

(** What [load_snapshot] does with one entry it has read. *)
Definition restore_entry (now : Z) (key : string) (value : option Value)
    (storage : Storage.t) : Storage.t :=
  match value with
  | Some v =>
      match data v with
      | StringData str =>
          let storage := (Storage.set key str storage).2 in
          if expires_at v =? -1 then storage
          else
            let ttl := static_cast_int (expires_at v - now) in
            if ttl >? 0 then (Storage.expire now key ttl storage).2
            else storage
      | _ => storage
      end
  | None => storage
  end.

(** The loop of [load_snapshot] over the [count] entries. *)
Fixpoint load_entries (now : Z) (count : nat) (input : string)
    (storage : Storage.t) : outcome Storage.t :=
  match count with
  | O => Returns storage
  | S count' =>
      '(key, rest) ← read_string input;
      '(value, rest) ← deserialize_value rest;
      load_entries now count' rest (restore_entry now key value storage)
  end.

(** [Persistence::load_snapshot] on a file that could be opened. *)
Definition load_snapshot (now : Z) (file : string) (storage : Storage.t)
  : outcome Storage.t :=
  let storage := Storage.clear storage in
  '(count, rest) ← read_size file;
  load_entries now count rest storage.

End Persistence.

(** * The specification's side of the comparisons *)

Module Spec.
Import Protocol.

(** The command surface with its arities, as section 6 of the
    specification lists it. *)
Definition arity (c : CommandType) : option nat :=
  match c with
  | CMD_PING | CMD_QUIT | CMD_KEYS | CMD_DBSIZE => Some 0%nat
  | CMD_GET | CMD_DEL | CMD_EXISTS | CMD_TTL
  | CMD_LPOP | CMD_RPOP | CMD_LLEN | CMD_SMEMBERS | CMD_SCARD => Some 1%nat
  | CMD_SET | CMD_EXPIRE | CMD_LPUSH | CMD_RPUSH
  | CMD_SADD | CMD_SREM | CMD_SISMEMBER => Some 2%nat
  | CMD_LRANGE => Some 3%nat
  | CMD_UNKNOWN => None
  end.

(** The encoding of one array item: [$<len>\r\n<item>\r\n]. *)
Definition bulk (item : string) : string :=
  "$" +:+ size_to_string (String.length item) +:+ CRLF +:+ item +:+ CRLF.

(** The encoding of an array of strings: [*<n>\r\n], then every item. *)
Definition array_wire (v : list string) : string :=
  "*" +:+ size_to_string (length v) +:+ CRLF
  +:+ foldr (λ item rest, bulk item +:+ rest) "" v.

End Spec.

(** * Auxiliary definitions for the statements about the snapshot file *)

(** The bytes of the items of a list or set, in the order written. *)
Definition items_bytes (l : list string) : string :=
  foldr (λ item rest,
           Persistence.write_size (String.length item) +:+ item +:+ rest) "" l.

(** A value whose sizes and expiration instant fit the eight-byte fields
    of the file. *)
Definition fits_fields (v : Value) : Prop :=
  - 2 ^ 63 <= expires_at v < 2 ^ 63
  ∧ match data v with
    | StringData str => Z.of_nat (String.length str) < 2 ^ 64
    | ListData l =>
        Z.of_nat (length l) < 2 ^ 64
        ∧ Forall (λ item, Z.of_nat (String.length item) < 2 ^ 64) l
    | SetData s =>
        Z.of_nat (size s) < 2 ^ 64
        ∧ Forall (λ item, Z.of_nat (String.length item) < 2 ^ 64) (elements s)
    end.

(** The bytes [save_snapshot] writes for one entry. *)
Definition entry_bytes (key : string) (value : Value) : string :=
  Persistence.write_size (String.length key) +:+ key
  +:+ Persistence.serialize_value "" value.

(** The body of the file for the entries [l] of a snapshot. *)
Definition entries_bytes (now : Z) (l : list (string * Value)) : string :=
  foldr (λ kv rest,
           (if is_expired now kv.2 then "" else entry_bytes kv.1 kv.2)
           +:+ rest) "" l.

(** What [load_snapshot] does with the entry for [kv.1] holding [kv.2]. *)
Definition restore_pair (now : Z) (st : Storage.t) (kv : string * Value)
  : Storage.t :=
  Persistence.restore_entry now kv.1 (Some kv.2) st.

(** The expiration instant [load_snapshot] gives a String it restores. *)
Definition restored_expiry (now e : Z) : Z :=
  if e =? -1 then -1
  else
    let ttl := static_cast_int (e - now) in
    if ttl >? 0 then now + ttl else -1.

(** What a load at clock reading [now] keeps of a value of the file. *)
Definition restored (now : Z) (v : Value) : option Value :=
  match data v with
  | StringData str =>
      Some (mkValue (StringData str) (restored_expiry now (expires_at v)))
  | _ => None
  end.

(** * Auxiliary definitions for the statements about request lines *)

(** A string without white space, and a token: one that is not empty
    either. *)
Definition no_space (s : string) : Prop :=
  Forall (λ c, Protocol.isspace c = false) (list_ascii_of_string s).
Definition is_token (s : string) : Prop := s ≠ EmptyString ∧ no_space s.

(** The words separated by single blanks, as the client assembles a
    command line. *)
Definition join_words (ws : list string) : string := String.concat " " ws.

(** The type sigil a response starts with. *)
Definition sigil (r : Protocol.Response) : ascii :=
  match Protocol.status r with
  | Protocol.OK =>
      match Protocol.data r with
      | [] => "+"
      | [_] => "$"
      | _ => "*"
      end
  | Protocol.NOT_FOUND => "$"
  | _ => "-"
  end%char.

(** * Auxiliary definitions for the statements about the connection loop *)

(** Bytes without a line feed, and bytes without a zero byte. *)
Definition no_newline (s : string) : Prop :=
  Forall (λ c, Ascii.eqb c Protocol.LF = false) (list_ascii_of_string s).
Definition no_zero (s : string) : Prop :=
  Forall (λ c, Ascii.eqb c zero = false) (list_ascii_of_string s).

(** What the loop goes on to do after a first batch of lines: nothing if
    the connection was closed, otherwise [next] on the bytes left over and
    the store reached, with the responses of both in order. *)
Definition and_then
    (first : outcome (list string * Server.connection * Storage.t))
    (next : string → Storage.t →
            outcome (list string * Server.connection * Storage.t))
  : outcome (list string * Server.connection * Storage.t) :=
  match first with
  | Returns (sent, Server.Open accumulated, st) =>
      match next accumulated st with
      | Returns (sent', conn, st') => Returns (sent ++ sent', conn, st')
      | Undefined => Undefined
      end
  | Returns (sent, Server.Closed, st) => Returns (sent, Server.Closed, st)
  | Undefined => Undefined
  end.

(** * Concrete stores used by the evaluations below *)

(** A one-element list whose expiration instant, 5, lies before the
    clock reading 10 used with it. *)
Definition expired_list : Value := mkValue (ListData ["a"]) 5.
Definition expired_list_store : Storage.t := {["k" := expired_list]}.

(** A set that expired at instant 5 as well. *)
Definition expired_set_store : Storage.t :=
  {["k" := mkValue (SetData {["m"]}) 5]}.

(** A string without expiry. *)
Definition plain_string : Value := mkValue (StringData "v") (-1).
Definition plain_string_store : Storage.t := {["k" := plain_string]}.

(** An empty list, as [RPUSH k a] followed by [LPOP k] leaves it. *)
Definition empty_list_store : Storage.t := {["k" := mkValue (ListData []) (-1)]}.

(** A store with one live value of each variant. *)
Definition three_variant_store : Storage.t :=
  <["l" := mkValue (ListData ["a"]) (-1)]>
    (<["s" := mkValue (SetData {["m"]}) (-1)]>
       {["t" := mkValue (StringData "v") 50]}).

(** A live string next to the list that expired at instant 5. *)
Definition half_expired_store : Storage.t :=
  <["k" := expired_list]> {["t" := mkValue (StringData "v") (-1)]}.

(** * Properties *)

Import Protocol Server ValueModel.

(** Unfolds one dispatch down to the storage calls it makes. *)
Ltac dispatch :=
  unfold execute_command, nargs, arg; simpl;
  unfold mbind, Exec_bind, invoke, query, query_partial; simpl.

(** ** The value model *)

Lemma is_expired_no_expiry now d : is_expired now (mkValue d (-1)) = false.
Proof. reflexivity. Qed.

Lemma static_cast_int_small z :
  -2147483648 <= z <= 2147483647 → static_cast_int z = z.
Proof.
  intros Hz. unfold static_cast_int.
  rewrite Z.mod_small by lia. lia.
Qed.

(** ** Lazy expiration where the source performs it *)

Section lazy_expiration.
Context (now : Z) (key : string) (st : Storage.t) (v : Value).
Hypothesis Hlookup : st !! key = Some v.
Hypothesis Hexpired : is_expired now v = true.

Lemma cleanup_expired_removes : Storage.cleanup_expired now key st = delete key st.
Proof. unfold Storage.cleanup_expired. by rewrite Hlookup, Hexpired. Qed.

Lemma get_expired : Storage.get now key st = (None, delete key st).
Proof.
  unfold Storage.get. rewrite Hlookup, Hexpired.
  by rewrite cleanup_expired_removes.
Qed.

Lemma exists_expired : Storage.exists_ now key st = (false, delete key st).
Proof.
  unfold Storage.exists_. rewrite Hlookup, Hexpired.
  by rewrite cleanup_expired_removes.
Qed.

Lemma ttl_expired : Storage.ttl now key st = -2.
Proof. unfold Storage.ttl. by rewrite Hlookup, Hexpired. Qed.
End lazy_expiration.

Lemma get_absent now key (st : Storage.t) :
  st !! key = None → Storage.get now key st = (None, st).
Proof. intros H. unfold Storage.get. by rewrite H. Qed.

Lemma lpop_absent key (st : Storage.t) :
  st !! key = None → Storage.lpop key st = (None, st).
Proof. intros H. unfold Storage.lpop. by rewrite H. Qed.

(** The list and set paths never read the clock: a pop finds and returns
    the front element whatever the expiration instant is. *)
Lemma lpop_front key (st : Storage.t) front rest e :
  st !! key = Some (mkValue (ListData (front :: rest)) e) →
  Storage.lpop key st = (Some front, <[key := mkValue (ListData rest) e]> st).
Proof. intros H. unfold Storage.lpop. by rewrite H. Qed.


(** C1.  Lazy expiration is missing on the list, set and expire paths: at
    clock reading 10 the list stored at "k" expired at instant 5, yet [lpop]
    returns its element and keeps the entry, [llen] counts it, [lpush]
    extends the stale list and [expire] answers true and revives it, while
    on a store without "k" the same pop returns nothing and the push starts
    from an empty list; likewise SMEMBERS replies with the member of a set
    that expired at instant 5. *)
Theorem expired_list_still_served :
  is_expired 10 expired_list = true
  ∧ Storage.lpop "k" expired_list_store
    = (Some "a", {["k" := mkValue (ListData []) 5]})
  ∧ Storage.lpop "k" (delete "k" expired_list_store) = (None, ∅)
  ∧ Storage.llen "k" expired_list_store = 1
  ∧ Storage.lpush "k" "b" expired_list_store
    = (true, {["k" := mkValue (ListData ["b"; "a"]) 5]})
  ∧ Storage.lpush "k" "b" (delete "k" expired_list_store)
    = (true, {["k" := mkValue (ListData ["b"]) (-1)]})
  ∧ Storage.expire 10 "k" 100 expired_list_store
    = (true, {["k" := mkValue (ListData ["a"]) 110]})
  ∧ Storage.expire 10 "k" 100 (delete "k" expired_list_store) = (false, ∅)
  ∧ execute_command 10 (mkRequest CMD_SMEMBERS ["k"]) expired_set_store
    = Returns (Response_vector OK ["m"], expired_set_store,
               [call_smembers "k"]).
Proof.
  unfold expired_list_store, expired_list.
  split; [reflexivity |].
  split; [by rewrite (lpop_front "k" _ "a" [] 5), insert_singleton_eq
            by apply lookup_singleton_eq |].
  split; [rewrite delete_singleton_eq; by apply lpop_absent |].
  repeat split; reflexivity.
Qed.

(** ** SET then GET *)

Lemma set_lookup key value (st : Storage.t) :
  (Storage.set key value st).2 !! key = Some (mkValue (StringData value) (-1)).
Proof. apply lookup_insert_eq. Qed.

Lemma get_live_string now key (st : Storage.t) s e :
  st !! key = Some (mkValue (StringData s) e) →
  is_expired now (mkValue (StringData s) e) = false →
  Storage.get now key st = (Some s, st).
Proof. intros H He. unfold Storage.get. by rewrite H, He. Qed.

(** C3.  [set] stores a fresh String value without expiry whatever was at
    the key; a following [get] returns the value written and leaves the
    store alone, [ttl] answers -1, and the dispatcher replies to SET and
    GET accordingly. *)
Theorem set_then_get (now now' : Z) (k v : string) (st : Storage.t) :
  let st' := (Storage.set k v st).2 in
  Storage.set k v st = (true, <[k := mkValue (StringData v) (-1)]> st)
  ∧ st' !! k = Some (mkValue (StringData v) (-1))
  ∧ Storage.get now' k st' = (Some v, st')
  ∧ Storage.ttl now' k st' = -1
  ∧ execute_command now (mkRequest CMD_SET [k; v]) st
    = Returns (Response_status OK, st', [call_set k v])
  ∧ execute_command now' (mkRequest CMD_GET [k]) st'
    = Returns (Response_string OK v, st', [call_get k])
  ∧ serialize_response (Response_string OK v)
    = "$" +:+ size_to_string (String.length v) +:+ CRLF +:+ v +:+ CRLF.
Proof.
  intros st'.
  assert (Hk : st' !! k = Some (mkValue (StringData v) (-1)))
    by apply set_lookup.
  assert (Hget : Storage.get now' k st' = (Some v, st'))
    by (by apply (get_live_string now' k st' v (-1))).
  repeat split; try done.
  - unfold Storage.ttl. by rewrite Hk.
  - dispatch. by rewrite Hget.
Qed.

(** ** Typed writes on a key of another variant *)

Lemma get_or_create_wrong_type key ty (st : Storage.t) v :
  st !! key = Some v → type v ≠ ty →
  Storage.get_or_create key ty st = (None, st).
Proof.
  intros H Hty. unfold Storage.get_or_create. rewrite H.
  by destruct (decide (type v ≠ ty)).
Qed.

Lemma lpush_wrong_type key value (st : Storage.t) v :
  st !! key = Some v → type v ≠ LIST →
  Storage.lpush key value st = (false, st).
Proof.
  intros H Hty. unfold Storage.lpush.
  by rewrite (get_or_create_wrong_type key LIST st v).
Qed.

Lemma rpush_wrong_type key value (st : Storage.t) v :
  st !! key = Some v → type v ≠ LIST →
  Storage.rpush key value st = (false, st).
Proof.
  intros H Hty. unfold Storage.rpush.
  by rewrite (get_or_create_wrong_type key LIST st v).
Qed.

Lemma sadd_wrong_type key member (st : Storage.t) v :
  st !! key = Some v → type v ≠ SET →
  Storage.sadd key member st = (false, st).
Proof.
  intros H Hty. unfold Storage.sadd.
  by rewrite (get_or_create_wrong_type key SET st v).
Qed.

(** C4, as the claim has it, fails for SADD: on the String key "k" the
    dispatcher answers SADD with the ordinary reply OK "0", which is not the
    wrong-type response (the store is left as it was). *)
Lemma sadd_on_string_replies_zero :
  execute_command 0 (mkRequest CMD_SADD ["k"; "m"]) plain_string_store
  = Returns (Response_string OK "0", plain_string_store, [call_sadd "k" "m"])
  ∧ Response_string OK "0" ≠ Response_status WRONG_TYPE
  ∧ serialize_response (Response_string OK "0")
    ≠ serialize_response (Response_status WRONG_TYPE).
Proof.
  split; [reflexivity |].
  split; [discriminate | vm_compute; discriminate].
Qed.

(** C4, amended.  On a key holding a live String value, LPUSH and RPUSH
    are answered with the wrong-type response and SADD with OK "0"; all
    three leave the store, hence the value at the key with its payload and
    expiration, exactly as it was, and a following GET returns the original
    string. *)
Theorem typed_write_on_string_key (now : Z) (k v s : string) (e : Z)
    (st : Storage.t) :
  st !! k = Some (mkValue (StringData s) e) →
  is_expired now (mkValue (StringData s) e) = false →
  Storage.lpush k v st = (false, st)
  ∧ Storage.rpush k v st = (false, st)
  ∧ Storage.sadd k v st = (false, st)
  ∧ execute_command now (mkRequest CMD_LPUSH [k; v]) st
    = Returns (Response_status WRONG_TYPE, st, [call_lpush k v])
  ∧ execute_command now (mkRequest CMD_RPUSH [k; v]) st
    = Returns (Response_status WRONG_TYPE, st, [call_rpush k v])
  ∧ execute_command now (mkRequest CMD_SADD [k; v]) st
    = Returns (Response_string OK "0", st, [call_sadd k v])
  ∧ Storage.get now k st = (Some s, st)
  ∧ execute_command now (mkRequest CMD_GET [k]) st
    = Returns (Response_string OK s, st, [call_get k]).
Proof.
  intros Hk Hlive.
  assert (Hl : Storage.lpush k v st = (false, st))
    by (by apply (lpush_wrong_type k v st _ Hk)).
  assert (Hr : Storage.rpush k v st = (false, st))
    by (by apply (rpush_wrong_type k v st _ Hk)).
  assert (Hs : Storage.sadd k v st = (false, st))
    by (by apply (sadd_wrong_type k v st _ Hk)).
  assert (Hg : Storage.get now k st = (Some s, st))
    by (by apply (get_live_string now k st s e)).
  repeat split; try done; dispatch.
  - by rewrite Hl.
  - by rewrite Hr.
  - by rewrite Hs.
  - by rewrite Hg.
Qed.

Lemma typed_write_on_string_key_witness :
  Storage.lpush "k" "z" plain_string_store = (false, plain_string_store)
  ∧ Storage.rpush "k" "z" plain_string_store = (false, plain_string_store)
  ∧ Storage.sadd "k" "z" plain_string_store = (false, plain_string_store)
  ∧ execute_command 7 (mkRequest CMD_LPUSH ["k"; "z"]) plain_string_store
    = Returns (Response_status WRONG_TYPE, plain_string_store,
               [call_lpush "k" "z"])
  ∧ execute_command 7 (mkRequest CMD_RPUSH ["k"; "z"]) plain_string_store
    = Returns (Response_status WRONG_TYPE, plain_string_store,
               [call_rpush "k" "z"])
  ∧ execute_command 7 (mkRequest CMD_SADD ["k"; "z"]) plain_string_store
    = Returns (Response_string OK "0", plain_string_store,
               [call_sadd "k" "z"])
  ∧ Storage.get 7 "k" plain_string_store = (Some "v", plain_string_store)
  ∧ execute_command 7 (mkRequest CMD_GET ["k"]) plain_string_store
    = Returns (Response_string OK "v", plain_string_store, [call_get "k"]).
Proof.
  apply (typed_write_on_string_key 7 "k" "z" "v" (-1) plain_string_store);
    reflexivity.
Defined.

(** ** Pops that empty a list *)

Lemma llen_lookup key (st : Storage.t) l e :
  st !! key = Some (mkValue (ListData l) e) →
  Storage.llen key st = static_cast_int (Z.of_nat (length l)).
Proof. intros H. unfold Storage.llen. by rewrite H. Qed.

Lemma exists_live now key (st : Storage.t) v :
  st !! key = Some v → is_expired now v = false →
  Storage.exists_ now key st = (true, st).
Proof. intros H He. unfold Storage.exists_. by rewrite H, He. Qed.




(** ** EXPIRE with a count that is not positive *)

(** At the very instant a value is set to expire it is not yet expired:
    [is_expired] compares with a strict [>]. *)
Lemma is_expired_at_deadline now d : is_expired now (mkValue d now) = false.
Proof.
  unfold is_expired; simpl. destruct (now =? -1); [done |].
  rewrite Z.gtb_ltb. apply Z.ltb_irrefl.
Qed.

Lemma is_expired_past now d e :
  e ≠ -1 → e < now → is_expired now (mkValue d e) = true.
Proof.
  intros Hne Hlt. unfold is_expired; simpl.
  destruct (Z.eqb_spec e (-1)); [done |].
  rewrite Z.gtb_ltb. by apply Z.ltb_lt.
Qed.

Lemma expire_lookup now key seconds (st : Storage.t) v :
  st !! key = Some v →
  Storage.expire now key seconds st
  = (true, <[key := mkValue (data v) (now + seconds)]> st).
Proof. intros H. unfold Storage.expire. by rewrite H. Qed.

(** With a negative count the key is gone for the next read. *)
Lemma expire_negative_hides now key seconds (st : Storage.t) v :
  st !! key = Some v → seconds < 0 → now + seconds ≠ -1 →
  let st' := (Storage.expire now key seconds st).2 in
  Storage.get now key st' = (None, delete key st)
  ∧ Storage.exists_ now key st' = (false, delete key st).
Proof.
  intros Hk Hneg Hne st'. unfold st'.
  rewrite (expire_lookup _ _ _ _ _ Hk); simpl.
  assert (He : is_expired now (mkValue (data v) (now + seconds)) = true)
    by (apply is_expired_past; lia).
  split.
  - rewrite (get_expired now key _ _ (lookup_insert_eq _ _ _) He).
    by rewrite delete_insert_eq.
  - rewrite (exists_expired now key _ _ (lookup_insert_eq _ _ _) He).
    by rewrite delete_insert_eq.
Qed.

(** The negative count that lands on the instant -1 stores the mark of
    "no expiry": the key then never expires. *)
Lemma expire_to_sentinel now now' key (st : Storage.t) v :
  st !! key = Some v →
  let st' := (Storage.expire now key (- (now + 1)) st).2 in
  st' !! key = Some (mkValue (data v) (-1))
  ∧ Storage.exists_ now' key st' = (true, st')
  ∧ Storage.ttl now' key st' = -1.
Proof.
  intros Hk st'. unfold st'.
  rewrite (expire_lookup _ _ _ _ _ Hk); cbn [snd].
  replace (now + - (now + 1)) with (-1) by lia.
  assert (Hk' : <[key := mkValue (data v) (-1)]> st !! key
                = Some (mkValue (data v) (-1))) by apply lookup_insert_eq.
  split; [done |]. split.
  - by apply (exists_live now' key _ _ Hk').
  - unfold Storage.ttl. by rewrite Hk'.
Qed.

(** With count 0 a String key stays readable for the rest of the second. *)
Lemma expire_zero_still_readable now key (st : Storage.t) s e :
  st !! key = Some (mkValue (StringData s) e) →
  let st' := (Storage.expire now key 0 st).2 in
  Storage.get now key st' = (Some s, st')
  ∧ Storage.exists_ now key st' = (true, st').
Proof.
  intros Hk st'. unfold st'.
  rewrite (expire_lookup _ _ _ _ _ Hk); simpl. rewrite Z.add_0_r.
  split.
  - apply (get_live_string now key _ s now); [apply lookup_insert_eq |].
    apply is_expired_at_deadline.
  - apply (exists_live now key _ (mkValue (StringData s) now));
      [apply lookup_insert_eq | apply is_expired_at_deadline].
Qed.

(** C6.  EXPIRE with count 0 does not make the key disappear at once: at
    clock reading 100, after [expire "k" 0] has returned true, a [get] at
    the same reading still returns "v", [exists] answers true and [keys]
    lists "k", although [ttl] already answers -2. *)
Theorem expire_zero_not_immediate :
  let st' : Storage.t := {["k" := mkValue (StringData "v") 100]} in
  Storage.expire 100 "k" 0 plain_string_store = (true, st')
  ∧ Storage.get 100 "k" st' = (Some "v", st')
  ∧ Storage.exists_ 100 "k" st' = (true, st')
  ∧ Storage.keys 100 st' = ["k"]
  ∧ Storage.ttl 100 "k" st' = -2
  ∧ execute_command 100 (mkRequest CMD_EXPIRE ["k"; "0"]) plain_string_store
    = Returns (Response_string OK "1", st', [call_expire "k" 0])
  ∧ execute_command 100 (mkRequest CMD_GET ["k"]) st'
    = Returns (Response_string OK "v", st', [call_get "k"]).
Proof.
  intros st'.
  destruct (expire_zero_still_readable 100 "k" plain_string_store "v" (-1))
    as [Hget Hex]; [reflexivity |].
  split; [reflexivity |].
  split; [exact Hget |]. split; [exact Hex |].
  split; [reflexivity |]. split; [reflexivity |].
  split; reflexivity.
Qed.

(** ** LRANGE *)

Lemma lrange_bounds_empty start stop : Storage.lrange_bounds 0 start stop = (0, 0).
Proof.
  unfold Storage.lrange_bounds.
  destruct (start <? 0), (stop <? 0); f_equal; lia.
Qed.

(** On an empty list the slice taken is [[begin() + 0, begin() + 1)], one
    element past the end, whatever [start] and [stop] are. *)
Lemma lrange_empty_list key start stop (st : Storage.t) e :
  st !! key = Some (mkValue (ListData []) e) →
  Storage.lrange key start stop st = Undefined.
Proof.
  intros H. unfold Storage.lrange. rewrite H.
  cbn [data length Z.of_nat]. change (static_cast_int 0) with 0.
  by rewrite lrange_bounds_empty.
Qed.

(** On a list that is not empty the slice always lies inside the list. *)
Lemma lrange_nonempty_defined key start stop (st : Storage.t) l e :
  st !! key = Some (mkValue (ListData l) e) →
  l ≠ [] → Z.of_nat (length l) <= 2147483647 →
  ∃ items, Storage.lrange key start stop st = Returns (Some items).
Proof.
  intros H Hne Hlen. unfold Storage.lrange. rewrite H. cbn [data].
  assert (0 < Z.of_nat (length l)) by (destruct l; [done | simpl; lia]).
  rewrite static_cast_int_small by lia.
  unfold Storage.lrange_bounds.
  set (a := Z.max 0 (Z.min _ _)). set (b := Z.max 0 (Z.min _ _)).
  assert (0 <= a < Z.of_nat (length l)) by (unfold a; lia).
  assert (0 <= b < Z.of_nat (length l)) by (unfold b; lia).
  destruct (Z.gtb_spec a b); [by eexists |].
  unfold Storage.vector_range.
  replace (0 <=? a) with true by (symmetry; apply Z.leb_le; lia).
  replace (a <=? b + 1) with true by (symmetry; apply Z.leb_le; lia).
  replace (b + 1 <=? Z.of_nat (length l)) with true
    by (symmetry; apply Z.leb_le; lia).
  by eexists.
Qed.

(** C9.  [lrange] on an existing empty list does not return an empty
    result: the clamped indices are 0 and 0, the test [start > stop] fails,
    and the slice from index 0 to index 1 reaches past the end of the
    empty sequence. *)
Theorem lrange_on_empty_list_out_of_bounds :
  Storage.lrange_bounds 0 0 (-1) = (0, 0)
  ∧ Storage.vector_range [] 0 (0 + 1) = Undefined
  ∧ Storage.lrange "k" 0 (-1) empty_list_store = Undefined
  ∧ Storage.lrange "k" 0 (-1) empty_list_store ≠ Returns (Some []).
Proof.
  assert (H : Storage.lrange "k" 0 (-1) empty_list_store = Undefined)
    by (by apply (lrange_empty_list "k" 0 (-1) empty_list_store (-1))).
  split; [reflexivity |]. split; [reflexivity |].
  split; [exact H |]. by rewrite H.
Qed.

(** ** DBSIZE and KEYS *)

Lemma elem_of_keys now (st : Storage.t) k :
  k ∈ Storage.keys now st ↔ ∃ v, st !! k = Some v ∧ is_expired now v = false.
Proof.
  unfold Storage.keys. rewrite list_elem_of_fmap. split.
  - intros [[k' v] [-> Hin]].
    apply list_elem_of_filter in Hin as [Hlive Hin].
    apply elem_of_map_to_list in Hin. by exists v.
  - intros (v & Hk & Hlive). exists (k, v). split; [done |].
    apply list_elem_of_filter. split; [done |].
    by apply elem_of_map_to_list.
Qed.

Lemma NoDup_keys now (st : Storage.t) : NoDup (Storage.keys now st).
Proof.
  unfold Storage.keys.
  apply (sublist_NoDup _ ((map_to_list st).*1)).
  - apply (NoDup_fst_map_to_list st).
  - apply fmap_sublist. apply sublist_filter.
Qed.

Lemma length_filter_eq {A} (P : A → Prop) `{!∀ x, Decision (P x)} (l : list A) :
  length (filter P l) = length l ↔ Forall P l.
Proof.
  split.
  - intros Hlen. apply Forall_forall. intros x Hx.
    destruct (decide (P x)) as [|Hn]; [done |].
    pose proof (length_filter_lt P l x Hx Hn). lia.
  - intros HP. induction HP as [|x l Hx _ IH]; [done |].
    rewrite filter_cons_True by done. simpl. by rewrite IH.
Qed.

(** C5.  [dbsize] does not return the number of non-expired keys: with
    one entry whose expiration instant 5 lies before the clock reading 10,
    [dbsize] counts it, answering 1, while [keys] leaves it out, so [dbsize]
    differs from the length of [keys]. *)
Lemma dbsize_counts_expired :
  is_expired 10 expired_list = true
  ∧ Storage.dbsize expired_list_store = 1%nat
  ∧ Storage.keys 10 expired_list_store = []
  ∧ Storage.dbsize expired_list_store
    ≠ length (Storage.keys 10 expired_list_store).
Proof.
  split; [reflexivity |]. split; [reflexivity |]. split; [reflexivity |].
  vm_compute. discriminate.
Qed.

(** What the two functions return in general: [keys] returns, without
    repetition, exactly the keys whose value is not expired at the clock
    reading of the call; [dbsize] returns the number of entries stored,
    expired or not, so it is never below the length of [keys] and equals it
    exactly when no stored entry is expired. *)
Theorem keys_live_dbsize_stored (now : Z) (st : Storage.t) :
  (∀ k, k ∈ Storage.keys now st
        ↔ ∃ v, st !! k = Some v ∧ is_expired now v = false)
  ∧ NoDup (Storage.keys now st)
  ∧ Storage.dbsize st = size (dom st)
  ∧ (length (Storage.keys now st) ≤ Storage.dbsize st)%nat
  ∧ (Storage.dbsize st = length (Storage.keys now st)
     ↔ ∀ k v, st !! k = Some v → is_expired now v = false).
Proof.
  split; [intros k; apply elem_of_keys |].
  split; [apply NoDup_keys |].
  split; [unfold Storage.dbsize; by rewrite size_dom |].
  unfold Storage.dbsize, Storage.keys.
  rewrite length_fmap, <- (length_map_to_list st).
  split; [apply length_filter |].
  split.
  - intros Hlen k v Hk. symmetry in Hlen.
    apply length_filter_eq in Hlen.
    apply elem_of_map_to_list in Hk.
    by apply (proj1 (Forall_forall _ _) Hlen (k, v)).
  - intros Hall. symmetry. apply length_filter_eq.
    apply Forall_forall. intros [k v] Hin. simpl.
    apply elem_of_map_to_list in Hin. by apply (Hall k v).
Qed.

(** ** Command lookup *)

(** Every token of the command surface names its command; any other token
    is unknown. *)
Lemma string_to_command_surface :
  map string_to_command
    ["PING"; "QUIT"; "SET"; "GET"; "DEL"; "EXISTS"; "EXPIRE"; "TTL"; "KEYS";
     "DBSIZE"; "LPUSH"; "RPUSH"; "LPOP"; "RPOP"; "LRANGE"; "LLEN"; "SADD";
     "SREM"; "SISMEMBER"; "SMEMBERS"; "SCARD"; "FLUSHALL"]
  = [CMD_PING; CMD_QUIT; CMD_SET; CMD_GET; CMD_DEL; CMD_EXISTS; CMD_EXPIRE;
     CMD_TTL; CMD_KEYS; CMD_DBSIZE; CMD_LPUSH; CMD_RPUSH; CMD_LPOP; CMD_RPOP;
     CMD_LRANGE; CMD_LLEN; CMD_SADD; CMD_SREM; CMD_SISMEMBER; CMD_SMEMBERS;
     CMD_SCARD; CMD_UNKNOWN].
Proof. reflexivity. Qed.

(** ** Arity checks of the dispatcher *)

(** C7.  The commands without arguments are not checked for their
    arity, although every command with arguments is: with one argument, GET
    wanting one and given two is answered with the invalid-args error and
    calls nothing, but PING is answered PONG, QUIT is answered as without
    arguments, KEYS calls [keys] on the store and returns its result, and
    DBSIZE calls [dbsize] and returns the count. *)
Lemma zero_arity_commands_unchecked :
  (Spec.arity CMD_PING = Some 0%nat
   ∧ execute_command 0 (mkRequest CMD_PING ["x"]) plain_string_store
     = Returns (Response_string OK "PONG", plain_string_store, []))
  ∧ (Spec.arity CMD_QUIT = Some 0%nat
     ∧ execute_command 0 (mkRequest CMD_QUIT ["x"]) plain_string_store
       = execute_command 0 (mkRequest CMD_QUIT []) plain_string_store
     ∧ ∃ d, execute_command 0 (mkRequest CMD_QUIT ["x"]) plain_string_store
            = Returns (mkResponse OK d, plain_string_store, []))
  ∧ (Spec.arity CMD_KEYS = Some 0%nat
     ∧ execute_command 0 (mkRequest CMD_KEYS ["x"]) plain_string_store
       = Returns (Response_vector OK ["k"], plain_string_store, [call_keys]))
  ∧ (Spec.arity CMD_DBSIZE = Some 0%nat
     ∧ execute_command 0 (mkRequest CMD_DBSIZE ["x"]) plain_string_store
       = Returns (Response_string OK "1", plain_string_store, [call_dbsize]))
  ∧ (Spec.arity CMD_GET = Some 1%nat
     ∧ execute_command 0 (mkRequest CMD_GET ["k"; "x"]) plain_string_store
       = Returns (Response_status INVALID_ARGS, plain_string_store, []))
  ∧ Response_string OK "PONG" ≠ Response_status INVALID_ARGS
  ∧ Response_vector OK ["k"] ≠ Response_status INVALID_ARGS
  ∧ Response_string OK "1" ≠ Response_status INVALID_ARGS
  ∧ OK ≠ INVALID_ARGS.
Proof.
  split; [by split |].
  split; [split; [reflexivity |]; split; [reflexivity |]; by eexists |].
  split; [by split |]. split; [by split |]. split; [by split |].
  split; [discriminate |]. split; [discriminate |].
  split; discriminate.
Qed.

(** What the dispatcher does in general: for a command whose arity in
    the table is positive, an argument list of any other length gets the
    invalid-args response, the store is untouched and no storage operation
    is called.  PING, QUIT, KEYS and DBSIZE do not look at their arguments:
    with any argument list they run as with none and answer OK. *)
Theorem arity_mismatch (now : Z) (c : CommandType) (n : nat)
    (a : list string) (st : Storage.t) :
  Spec.arity c = Some n → length a ≠ n →
  match n with
  | O =>
      execute_command now (mkRequest c a) st
      = execute_command now (mkRequest c []) st
      ∧ ∃ d calls, execute_command now (mkRequest c a) st
                   = Returns (mkResponse OK d, st, calls)
  | S _ =>
      execute_command now (mkRequest c a) st
      = Returns (Response_status INVALID_ARGS, st, [])
  end.
Proof.
  intros Hc Hlen.
  destruct c; simpl in Hc; inversion Hc; subst n; clear Hc;
    unfold execute_command, nargs; cbn [command args];
    try (destruct (decide (length a ≠ _)); [reflexivity | contradiction]).
  all: split; [reflexivity | by do 2 eexists].
Qed.

Lemma arity_mismatch_witness :
  execute_command 3 (mkRequest CMD_SET ["k"]) plain_string_store
  = Returns (Response_status INVALID_ARGS, plain_string_store, []).
Proof.
  apply (arity_mismatch 3 CMD_SET 2 ["k"] plain_string_store);
    [reflexivity | simpl; lia].
Defined.

(** ** Encoding of array replies *)

Lemma append_assoc (s t u : string) : (s +:+ t) +:+ u = s +:+ (t +:+ u).
Proof.
  induction s as [|c s IH]; [reflexivity |].
  change (String c ((s +:+ t) +:+ u) = String c (s +:+ (t +:+ u))).
  by rewrite IH.
Qed.

Lemma append_empty_r (s : string) : s +:+ "" = s.
Proof.
  induction s as [|c s IH]; [reflexivity |].
  change (String c (s +:+ "") = String c s). by rewrite IH.
Qed.

Lemma write_bulk_spec oss item : write_bulk oss item = oss +:+ Spec.bulk item.
Proof. reflexivity. Qed.

(** The loop over the items appends their encodings in order. *)
Lemma fold_write_bulk items oss :
  fold_left write_bulk items oss
  = oss +:+ foldr (λ item rest, Spec.bulk item +:+ rest) "" items.
Proof.
  revert oss. induction items as [|item items IH]; intros oss; simpl.
  - by rewrite append_empty_r.
  - by rewrite IH, write_bulk_spec, append_assoc.
Qed.

(** C8, as the claim has it, fails for n = 0 and n = 1: an OK response
    with no items is written as [+OK\r\n] and one with a single item as a
    bare bulk string, neither with a [*<n>\r\n] header. *)
Lemma short_arrays_not_arrays :
  serialize_response (Response_vector OK []) = "+OK" +:+ CRLF
  ∧ serialize_response (Response_vector OK []) ≠ Spec.array_wire []
  ∧ serialize_response (Response_vector OK ["a"]) = Spec.bulk "a"
  ∧ serialize_response (Response_vector OK ["a"]) ≠ Spec.array_wire ["a"].
Proof.
  split; [reflexivity |]. split; [vm_compute; discriminate |].
  split; [reflexivity |]. vm_compute; discriminate.
Qed.

(** C8, amended.  An OK response carrying two or more strings is written
    as [*<n>\r\n] followed by [$<len>\r\n<item>\r\n] for each item in
    order, with byte lengths in decimal. *)
Theorem array_reply_wire_form (v : list string) :
  (2 ≤ length v)%nat →
  serialize_response (Response_vector OK v) = Spec.array_wire v.
Proof.
  intros Hlen. destruct v as [|x [|y v]]; simpl in Hlen; [lia | lia |].
  unfold serialize_response, Response_vector; cbn [status Protocol.data].
  rewrite fold_write_bulk. unfold Spec.array_wire.
  by rewrite !append_assoc.
Qed.

Lemma array_reply_wire_form_witness :
  serialize_response (Response_vector OK ["ab"; ""])
  = Spec.array_wire ["ab"; ""].
Proof. apply (array_reply_wire_form ["ab"; ""]). simpl; lia. Defined.

(** The arrays with no or one item, as the source writes them. *)
Lemma short_reply_wire_form (item : string) :
  serialize_response (Response_vector OK []) = "+OK" +:+ CRLF
  ∧ serialize_response (Response_vector OK [item]) = Spec.bulk item.
Proof. split; reflexivity. Qed.

(** ** Snapshot save and load *)

Import Persistence.

Lemma read_append bytes rest :
  read (String.length bytes) (bytes +:+ rest) = Returns (bytes, rest).
Proof.
  induction bytes as [|c bytes IH]; [reflexivity |].
  change (String c bytes +:+ rest) with (String c (bytes +:+ rest)).
  simpl. by rewrite IH.
Qed.

Lemma read_buffer_append fill bytes rest :
  read_buffer fill (String.length bytes) (bytes +:+ rest) = (bytes, rest).
Proof.
  induction bytes as [|c bytes IH]; [reflexivity |].
  change (String c bytes +:+ rest) with (String c (bytes +:+ rest)).
  simpl. by rewrite IH.
Qed.

Lemma length_write_le width n : String.length (write_le width n) = width.
Proof.
  revert n. induction width as [|w IH]; intros n; [reflexivity |].
  simpl. by rewrite IH.
Qed.

Lemma N_of_byte_of n : Z.of_N (N_of_ascii (byte_of n)) = n mod 256.
Proof.
  unfold byte_of.
  assert (0 <= n mod 256 < 256) by (apply Z.mod_pos_bound; lia).
  rewrite N_ascii_embedding by lia. lia.
Qed.

Lemma decode_write_le width n :
  decode_le (write_le width n) = n mod 256 ^ Z.of_nat width.
Proof.
  revert n. induction width as [|w IH]; intros n.
  - simpl. by rewrite Z.mod_1_r.
  - cbn [write_le decode_le]. rewrite N_of_byte_of, IH.
    rewrite Nat2Z.inj_succ, Z.pow_succ_r by lia.
    rewrite (Z.rem_mul_r n 256 (256 ^ Z.of_nat w)) by lia. lia.
Qed.

(** A size written by [save_snapshot] is read back by [load_snapshot]. *)
Lemma read_size_write_size (n : nat) rest :
  Z.of_nat n < 2 ^ 64 →
  read_size (write_size n +:+ rest) = Returns (n, rest).
Proof.
  intros Hn. unfold read_size, write_size.
  pose proof (read_append (write_le 8 (Z.of_nat n)) rest) as Hr.
  rewrite length_write_le in Hr. rewrite Hr.
  unfold mbind, outcome_bind, mret, outcome_ret.
  rewrite decode_write_le.
  change (256 ^ Z.of_nat 8) with (2 ^ 64).
  rewrite Z.mod_small by lia. by rewrite Nat2Z.id.
Qed.

(** An expiration instant is read back as written. *)
Lemma read_time_write_time (t : Z) rest :
  - 2 ^ 63 <= t < 2 ^ 63 →
  read_time (write_time t +:+ rest) = Returns (t, rest).
Proof.
  intros Ht. unfold read_time, write_time.
  pose proof (read_buffer_append (ascii_of_nat 255) (write_le 8 t) rest) as Hr.
  rewrite length_write_le in Hr. rewrite Hr.
  unfold mret, outcome_ret.
  rewrite decode_write_le.
  change (256 ^ Z.of_nat 8) with (2 ^ 64).
  change 9223372036854775808 with (2 ^ 63).
  change 18446744073709551616 with (2 ^ 64).
  destruct (Z.ltb_spec (t mod 2 ^ 64) (2 ^ 63)) as [Hlt | Hge];
    do 2 f_equal.
  - destruct (Z.lt_ge_cases t 0).
    + rewrite <- (Z.mod_add t 1 (2 ^ 64)) in Hlt by lia.
      rewrite Z.mod_small in Hlt by lia. lia.
    + rewrite Z.mod_small by lia. done.
  - destruct (Z.lt_ge_cases t 0).
    + rewrite <- (Z.mod_add t 1 (2 ^ 64)) by lia.
      rewrite Z.mod_small by lia. lia.
    + rewrite Z.mod_small in Hge by lia. lia.
Qed.

(** *** What the file keeps of a value *)

Lemma fold_write_item l os :
  fold_left write_item l os = os +:+ items_bytes l.
Proof.
  revert os. induction l as [|item l IH]; intros os; simpl.
  - by rewrite append_empty_r.
  - rewrite IH. unfold write_item. by rewrite !append_assoc.
Qed.

Lemma serialize_value_append os v :
  serialize_value os v = os +:+ serialize_value "" v.
Proof.
  unfold serialize_value. destruct (data v) as [str | l | s];
    rewrite ?fold_write_item; change ("" +:+ ?x) with x;
    by rewrite !append_assoc.
Qed.

Lemma read_string_append str rest :
  Z.of_nat (String.length str) < 2 ^ 64 →
  read_string (write_size (String.length str) +:+ str +:+ rest)
  = Returns (str, rest).
Proof.
  intros Hlen. unfold read_string.
  rewrite read_size_write_size by done.
  unfold mbind, outcome_bind, mret, outcome_ret.
  by rewrite read_buffer_append.
Qed.

Lemma read_items_append l rest :
  Forall (λ item, Z.of_nat (String.length item) < 2 ^ 64) l →
  read_items (length l) (items_bytes l +:+ rest) = Returns (l, rest).
Proof.
  induction 1 as [|item l Hitem _ IH]; [reflexivity |].
  cbn [length read_items items_bytes foldr].
  fold (items_bytes l). rewrite !append_assoc.
  rewrite read_string_append by done.
  unfold mbind, outcome_bind. by rewrite IH.
Qed.

(** After the type byte and the expiration instant, [deserialize_value]
    goes on with the reader of the variant the byte names. *)
Lemma deserialize_value_header ty e payload :
  - 2 ^ 63 <= e < 2 ^ 63 →
  deserialize_value (write_le 1 (type_byte ty) +:+ write_time e +:+ payload)
  = match ty with
    | STRING =>
        '(str, rest) ← read_string payload;
        mret (Some (mkValue (StringData str) e), rest)
    | LIST =>
        '(count, rest) ← read_size payload;
        '(items, rest) ← read_items count rest;
        mret (Some (mkValue (ListData items) e), rest)
    | SET =>
        '(count, rest) ← read_size payload;
        '(items, rest) ← read_items count rest;
        mret (Some (mkValue (SetData (list_to_set items)) e), rest)
    end.
Proof.
  intros He. unfold deserialize_value.
  pose proof (read_append (write_le 1 (type_byte ty))
                (write_time e +:+ payload)) as Hr.
  change (String.length (write_le 1 (type_byte ty))) with 1%nat in Hr.
  rewrite Hr. unfold mbind at 1, outcome_bind at 1.
  rewrite read_time_write_time by done.
  unfold mbind at 1, outcome_bind at 1.
  by destruct ty.
Qed.

(** [deserialize_value] reads back the value [serialize_value] wrote, of
    whichever variant, and stops where the value ends: the snapshot file
    itself keeps lists and sets. *)
Lemma deserialize_serialize_value v rest :
  fits_fields v →
  deserialize_value (serialize_value "" v +:+ rest) = Returns (Some v, rest).
Proof.
  intros [He Hd]. unfold serialize_value.
  change ("" +:+ ?x) with x.
  destruct v as [d e]; cbn [data expires_at] in *.
  destruct d as [str | l | s]; unfold type; cbn [data];
    rewrite ?fold_write_item, !append_assoc;
    rewrite deserialize_value_header by done.
  - by rewrite read_string_append.
  - destruct Hd as [Hn Hl].
    rewrite read_size_write_size by done.
    unfold mbind at 1, outcome_bind at 1.
    by rewrite read_items_append.
  - destruct Hd as [Hn Hl].
    change (size s) with (length (elements s)) in *.
    rewrite read_size_write_size by done.
    unfold mbind at 1, outcome_bind at 1.
    rewrite read_items_append by done.
    unfold mbind, outcome_bind, mret, outcome_ret.
    by rewrite list_to_set_elements_L.
Qed.

(** *** What a save followed by a load keeps of a store *)

Lemma fold_save_entry now l file :
  fold_left (save_entry now) l file = file +:+ entries_bytes now l.
Proof.
  revert file. induction l as [|[key value] l IH]; intros file;
    cbn [fold_left entries_bytes foldr fst snd].
  - by rewrite append_empty_r.
  - fold (entries_bytes now l). rewrite IH. unfold save_entry, entry_bytes.
    destruct (is_expired now value); [done |].
    by rewrite serialize_value_append, !append_assoc.
Qed.

Lemma save_snapshot_bytes now (st : Storage.t) :
  save_snapshot now st
  = write_size (size st) +:+ entries_bytes now (map_to_list st).
Proof. unfold save_snapshot, Storage.get_snapshot. apply fold_save_entry. Qed.

Lemma load_entries_append now l rest (st : Storage.t) :
  Forall (λ kv, is_expired now kv.2 = false ∧ fits_fields kv.2
                ∧ Z.of_nat (String.length kv.1) < 2 ^ 64) l →
  load_entries now (length l) (entries_bytes now l +:+ rest) st
  = Returns (fold_left (restore_pair now) l st).
Proof.
  intros Hl. revert st.
  induction Hl as [|[key value] l (Hlive & Hfit & Hkey) _ IH]; intros st;
    [reflexivity |].
  cbn [length load_entries entries_bytes foldr fold_left fst snd] in *.
  fold (entries_bytes now l). rewrite Hlive. unfold entry_bytes.
  rewrite !append_assoc, read_string_append by done.
  unfold mbind at 1, outcome_bind at 1.
  rewrite deserialize_serialize_value by done.
  unfold mbind at 1, outcome_bind at 1. apply IH.
Qed.

Lemma restore_entry_lookup now key v (st : Storage.t) k :
  restore_entry now key (Some v) st !! k
  = if decide (key = k)
    then match restored now v with
         | Some v' => Some v'
         | None => st !! k
         end
    else st !! k.
Proof.
  unfold restore_entry, restored, restored_expiry.
  destruct v as [[str | l | s] e]; cbn [data expires_at];
    try (by case_decide).
  destruct (e =? -1).
  { unfold Storage.set; simpl. case_decide; simplify_map_eq; done. }
  destruct (static_cast_int (e - now) >? 0).
  - rewrite (expire_lookup now key _ _ _ (set_lookup key str st)).
    cbn [snd data]. case_decide; simplify_map_eq; done.
  - unfold Storage.set; simpl. case_decide; simplify_map_eq; done.
Qed.

Lemma fold_restore_other now l (st : Storage.t) k :
  k ∉ l.*1 → fold_left (restore_pair now) l st !! k = st !! k.
Proof.
  revert st. induction l as [|[key value] l IH]; intros st Hk; [done |].
  rewrite fmap_cons, not_elem_of_cons in Hk. destruct Hk as [Hne Hk].
  cbn [fold_left]. rewrite IH by done. unfold restore_pair.
  rewrite restore_entry_lookup. by case_decide.
Qed.

Lemma fold_restore_entry now l (st : Storage.t) k v :
  NoDup l.*1 → (k, v) ∈ l →
  fold_left (restore_pair now) l st !! k
  = match restored now v with
    | Some v' => Some v'
    | None => st !! k
    end.
Proof.
  revert st. induction l as [|[key value] l IH]; intros st Hnd Hin.
  { by apply elem_of_nil in Hin. }
  rewrite fmap_cons in Hnd. apply NoDup_cons in Hnd as [Hfresh Hnd].
  cbn [fold_left]. apply elem_of_cons in Hin as [[= <- <-] | Hin].
  - rewrite fold_restore_other by done. unfold restore_pair.
    rewrite restore_entry_lookup. by case_decide.
  - rewrite IH by done. unfold restore_pair.
    rewrite restore_entry_lookup.
    assert (key ≠ k).
    { intros ->. apply Hfresh. apply list_elem_of_fmap. by exists (k, v). }
    by case_decide.
Qed.

(** For a store without expired entries whose contents fit the fields of
    the file, loading what was saved at the same clock reading is defined
    and keeps of every key exactly what [restored] keeps of its value: the
    Strings, never a List or a Set. *)
Lemma load_save_snapshot now (st st0 : Storage.t) :
  Z.of_nat (size st) < 2 ^ 64 →
  (∀ k v, st !! k = Some v →
          is_expired now v = false ∧ fits_fields v
          ∧ Z.of_nat (String.length k) < 2 ^ 64) →
  ∃ st', load_snapshot now (save_snapshot now st) st0 = Returns st'
         ∧ ∀ k, st' !! k = st !! k ≫= restored now.
Proof.
  intros Hsize Hst. eexists. split.
  - unfold load_snapshot. rewrite save_snapshot_bytes.
    rewrite read_size_write_size by done.
    unfold mbind, outcome_bind.
    rewrite <- (length_map_to_list st).
    rewrite <- (append_empty_r (entries_bytes now (map_to_list st))).
    apply load_entries_append.
    apply Forall_forall. intros [k v] Hin.
    apply elem_of_map_to_list in Hin. by apply Hst.
  - intros k. unfold Storage.clear. destruct (st !! k) as [v |] eqn:Hk.
    + rewrite (fold_restore_entry now _ _ k v);
        [| apply NoDup_fst_map_to_list | by apply elem_of_map_to_list].
      simpl. destruct (restored now v); [done | apply lookup_empty].
    + rewrite fold_restore_other; [apply lookup_empty |].
      intros Hin. apply list_elem_of_fmap in Hin as [[k' v] [-> Hin]].
      apply elem_of_map_to_list in Hin. simpl in *. congruence.
Qed.

Lemma restored_list_or_set now v : type v ≠ STRING → restored now v = None.
Proof. unfold restored, type. by destruct (data v). Qed.

(** A String keeps its expiration instant when that lies after the clock
    reading of the load and less than 2^31 seconds ahead. *)
Lemma restored_string now str e :
  now < e → e - now <= 2147483647 →
  restored now (mkValue (StringData str) e) = Some (mkValue (StringData str) e).
Proof.
  intros Hlt Hint. unfold restored, restored_expiry; cbn [data expires_at].
  destruct (Z.eqb_spec e (-1)) as [-> |]; [done |].
  rewrite static_cast_int_small by lia.
  destruct (Z.gtb_spec (e - now) 0); [| lia].
  do 2 f_equal. lia.
Qed.

(** Whatever the file holds, [load_snapshot] hands only String values to
    the store: entries of the other two variants are read and dropped. *)
Lemma restore_entry_strings now key value (st : Storage.t) :
  (∀ k v, st !! k = Some v → type v = STRING) →
  ∀ k v, restore_entry now key value st !! k = Some v → type v = STRING.
Proof.
  intros Hst k v. unfold restore_entry.
  destruct value as [[[str | l | s] e] |]; cbn [data expires_at];
    try apply Hst.
  assert (Hset : ∀ k v, (Storage.set key str st).2 !! k = Some v →
                        type v = STRING).
  { intros k' v'. unfold Storage.set; simpl.
    destruct (decide (key = k')) as [-> |].
    - rewrite lookup_insert_eq. by intros [= <-].
    - rewrite lookup_insert_ne by done. apply Hst. }
  destruct (e =? -1); [apply Hset |].
  destruct (static_cast_int (e - now) >? 0); [| apply Hset].
  rewrite (expire_lookup now key _ _ _ (set_lookup key str st)).
  cbn [snd data].
  destruct (decide (key = k)) as [-> |].
  - rewrite lookup_insert_eq. by intros [= <-].
  - rewrite lookup_insert_ne by done. apply Hset.
Qed.

Lemma load_entries_strings now count input (st st' : Storage.t) :
  (∀ k v, st !! k = Some v → type v = STRING) →
  load_entries now count input st = Returns st' →
  ∀ k v, st' !! k = Some v → type v = STRING.
Proof.
  revert input st. induction count as [|count IH]; intros input st Hst.
  - by intros [= <-].
  - cbn [load_entries]. unfold mbind, outcome_bind.
    destruct (read_string input) as [[key rest] |]; [| done].
    destruct (deserialize_value rest) as [[value rest'] |]; [| done].
    apply IH. by apply restore_entry_strings.
Qed.

Lemma load_snapshot_strings now file (st st' : Storage.t) :
  load_snapshot now file st = Returns st' →
  ∀ k v, st' !! k = Some v → type v = STRING.
Proof.
  unfold load_snapshot, mbind, outcome_bind.
  destruct (read_size file) as [[count rest] |]; [| done].
  apply load_entries_strings. intros k v. unfold Storage.clear.
  by rewrite lookup_empty.
Qed.

(** [save_snapshot] writes the number of all entries in the header but
    leaves the expired ones out of the body, so [load_snapshot] looks for
    more entries than the file holds. *)
Lemma snapshot_header_counts_expired :
  save_snapshot 10 half_expired_store
  = write_size 2
    +:+ serialize_value (write_size 1 +:+ "t") (mkValue (StringData "v") (-1))
  ∧ load_snapshot 10 (save_snapshot 10 half_expired_store) ∅ = Undefined.
Proof. split; vm_compute; reflexivity. Qed.

(** C2.  Saving a store that holds a live List, a live Set and a live
    String and loading the file back returns only the String: the List and
    the Set are gone although they are not expired. *)
Theorem snapshot_round_trip_loses_lists_and_sets :
  (∀ k v, three_variant_store !! k = Some v → is_expired 10 v = false)
  ∧ three_variant_store !! "l" = Some (mkValue (ListData ["a"]) (-1))
  ∧ three_variant_store !! "s" = Some (mkValue (SetData {["m"]}) (-1))
  ∧ load_snapshot 10 (save_snapshot 10 three_variant_store) ∅
    = Returns {["t" := mkValue (StringData "v") 50]}.
Proof.
  split.
  - intros k v. unfold three_variant_store.
    rewrite !lookup_insert, lookup_singleton.
    repeat case_decide; by intros [= <-].
  - split; [reflexivity |]. split; [reflexivity |]. vm_compute. reflexivity.
Qed.

(** * Further properties of the code *)

(** ** Storage: deletion, frame, pushes and pops *)

Lemma ttl_absent now key (st : Storage.t) :
  st !! key = None → Storage.ttl now key st = -2.
Proof. intros H. unfold Storage.ttl. by rewrite H. Qed.

Lemma exists_absent now key (st : Storage.t) :
  st !! key = None → Storage.exists_ now key st = (false, st).
Proof. intros H. unfold Storage.exists_. by rewrite H. Qed.

(** X1.  [del] answers whether the key was stored, expired or not, and
    removes it: afterwards [get], [exists] and [ttl] find nothing, a second
    [del] answers false, every other key is as before, and [dbsize] has
    dropped by one exactly when the answer was true. *)
Theorem del_removes_key (now : Z) (k : string) (st : Storage.t) :
  let deleted := (Storage.del k st).1 in
  let st' := (Storage.del k st).2 in
  (deleted = true ↔ is_Some (st !! k))
  ∧ st' !! k = None
  ∧ Storage.get now k st' = (None, st')
  ∧ Storage.exists_ now k st' = (false, st')
  ∧ Storage.ttl now k st' = -2
  ∧ Storage.del k st' = (false, st')
  ∧ (∀ k', k' ≠ k → st' !! k' = st !! k')
  ∧ Storage.dbsize st
    = (Storage.dbsize st' + if deleted then 1 else 0)%nat.
Proof.
  intros deleted st'. unfold deleted, st', Storage.del; cbn [fst snd].
  assert (Hk : delete k st !! k = None) by apply lookup_delete_eq.
  split; [apply bool_decide_eq_true |].
  split; [done |].
  split; [by apply get_absent |].
  split; [by apply exists_absent |].
  split; [by apply ttl_absent |].
  split.
  { f_equal; [| by apply delete_id].
    apply bool_decide_eq_false. rewrite Hk. by intros [? ?]. }
  split; [intros k' Hne; by apply lookup_delete_ne |].
  unfold Storage.dbsize. rewrite map_size_delete.
  destruct (st !! k) as [v |] eqn:Hst.
  - rewrite bool_decide_eq_true_2 by eauto.
    assert (size st ≠ 0%nat).
    { intros Hz. apply map_size_empty_inv in Hz. by rewrite Hz in Hst. }
    simpl. lia.
  - rewrite bool_decide_eq_false_2 by (by intros [? ?]). simpl. lia.
Qed.

Lemma get_or_create_other key ty (st : Storage.t) k' :
  key ≠ k' → (Storage.get_or_create key ty st).2 !! k' = st !! k'.
Proof.
  intros Hne. unfold Storage.get_or_create.
  destruct (st !! key) as [v |]; [by case_decide |].
  simpl. by rewrite lookup_insert_ne.
Qed.

Lemma cleanup_expired_other now key (st : Storage.t) k' :
  key ≠ k' → Storage.cleanup_expired now key st !! k' = st !! k'.
Proof.
  intros Hne. unfold Storage.cleanup_expired.
  destruct (st !! key) as [v |]; [| done].
  destruct (is_expired now v); [by rewrite lookup_delete_ne | done].
Qed.

(** X2.  No operation on a key touches another key: after any of the
    eleven operations that can change the store, the value stored at every
    other key is what it was. *)
Theorem other_keys_untouched (now seconds : Z) (k k' v : string)
    (st : Storage.t) :
  k ≠ k' →
  (Storage.set k v st).2 !! k' = st !! k'
  ∧ (Storage.get now k st).2 !! k' = st !! k'
  ∧ (Storage.del k st).2 !! k' = st !! k'
  ∧ (Storage.exists_ now k st).2 !! k' = st !! k'
  ∧ (Storage.expire now k seconds st).2 !! k' = st !! k'
  ∧ (Storage.lpush k v st).2 !! k' = st !! k'
  ∧ (Storage.rpush k v st).2 !! k' = st !! k'
  ∧ (Storage.lpop k st).2 !! k' = st !! k'
  ∧ (Storage.rpop k st).2 !! k' = st !! k'
  ∧ (Storage.sadd k v st).2 !! k' = st !! k'
  ∧ (Storage.srem k v st).2 !! k' = st !! k'.
Proof.
  intros Hne.
  pose proof (get_or_create_other k LIST st k' Hne) as Hlist.
  pose proof (get_or_create_other k SET st k' Hne) as Hset.
  pose proof (cleanup_expired_other now k st k' Hne) as Hclean.
  repeat apply conj.
  - unfold Storage.set; simpl. by rewrite lookup_insert_ne.
  - unfold Storage.get. destruct (st !! k) as [x |]; [| done].
    destruct (is_expired now x); [done |]. by destruct (data x).
  - unfold Storage.del; simpl. by rewrite lookup_delete_ne.
  - unfold Storage.exists_. destruct (st !! k) as [x |]; [| done].
    by destruct (is_expired now x).
  - unfold Storage.expire. destruct (st !! k) as [x |]; [| done].
    simpl. by rewrite lookup_insert_ne.
  - unfold Storage.lpush.
    destruct (Storage.get_or_create k LIST st) as [[x |] st1]; [| done].
    destruct (data x); simpl in *; by rewrite ?lookup_insert_ne.
  - unfold Storage.rpush.
    destruct (Storage.get_or_create k LIST st) as [[x |] st1]; [| done].
    destruct (data x); simpl in *; by rewrite ?lookup_insert_ne.
  - unfold Storage.lpop. destruct (st !! k) as [x |]; [| done].
    destruct (data x) as [| [|] |]; simpl; by rewrite ?lookup_insert_ne.
  - unfold Storage.rpop. destruct (st !! k) as [x |]; [| done].
    destruct (data x) as [| [|] |]; simpl; by rewrite ?lookup_insert_ne.
  - unfold Storage.sadd.
    destruct (Storage.get_or_create k SET st) as [[x |] st1]; [| done].
    destruct (data x); simpl in *; by rewrite ?lookup_insert_ne.
  - unfold Storage.srem. destruct (st !! k) as [x |]; [| done].
    destruct (data x); simpl; by rewrite ?lookup_insert_ne.
Qed.

Lemma other_keys_untouched_witness :
  (Storage.set "k" "w" three_variant_store).2 !! "l"
  = Some (mkValue (ListData ["a"]) (-1))
  ∧ (Storage.lpop "l" three_variant_store).2 !! "t"
    = Some (mkValue (StringData "v") 50).
Proof.
  destruct (other_keys_untouched 0 0 "k" "l" "w" three_variant_store)
    as (Hset & _); [done |].
  destruct (other_keys_untouched 0 0 "l" "t" "w" three_variant_store)
    as (_ & _ & _ & _ & _ & _ & _ & Hpop & _); [done |].
  split; [by rewrite Hset | by rewrite Hpop].
Defined.

Lemma get_or_create_found key (st : Storage.t) v :
  st !! key = Some v →
  Storage.get_or_create key (type v) st = (Some v, st).
Proof.
  intros H. unfold Storage.get_or_create. rewrite H. by case_decide.
Qed.

Lemma lpush_list key value (st : Storage.t) l e :
  st !! key = Some (mkValue (ListData l) e) →
  Storage.lpush key value st
  = (true, <[key := mkValue (ListData (value :: l)) e]> st).
Proof.
  intros H. unfold Storage.lpush.
  pose proof (get_or_create_found key st _ H) as Hg.
  change (type _) with LIST in Hg. by rewrite Hg.
Qed.

Lemma rpush_list key value (st : Storage.t) l e :
  st !! key = Some (mkValue (ListData l) e) →
  Storage.rpush key value st
  = (true, <[key := mkValue (ListData (l ++ [value])) e]> st).
Proof.
  intros H. unfold Storage.rpush.
  pose proof (get_or_create_found key st _ H) as Hg.
  change (type _) with LIST in Hg. by rewrite Hg.
Qed.

Lemma rpop_back key (st : Storage.t) l x e :
  st !! key = Some (mkValue (ListData (l ++ [x])) e) →
  Storage.rpop key st = (Some x, <[key := mkValue (ListData l) e]> st).
Proof.
  intros H. unfold Storage.rpop. rewrite H; cbn [data expires_at].
  destruct (l ++ [x]) as [| y l'] eqn:Hl.
  { by destruct l. }
  rewrite <- Hl. by rewrite last_last, removelast_last.
Qed.

(** X3.  On a key that holds a list, a pop undoes the push at the same
    end: [lpush] then [lpop], and [rpush] then [rpop], return the value
    pushed and give back the store exactly as it was. *)
Theorem push_then_pop (k v : string) (l : list string) (e : Z)
    (st : Storage.t) :
  st !! k = Some (mkValue (ListData l) e) →
  (Storage.lpush k v st).1 = true
  ∧ Storage.lpop k (Storage.lpush k v st).2 = (Some v, st)
  ∧ (Storage.rpush k v st).1 = true
  ∧ Storage.rpop k (Storage.rpush k v st).2 = (Some v, st).
Proof.
  intros Hk.
  rewrite (lpush_list k v st l e Hk), (rpush_list k v st l e Hk).
  cbn [fst snd].
  assert (Hback : <[k := mkValue (ListData l) e]> st = st)
    by (by apply insert_id).
  split; [done |]. split.
  - rewrite (lpop_front k _ v l e) by apply lookup_insert_eq.
    by rewrite insert_insert_eq, Hback.
  - split; [done |].
    rewrite (rpop_back k _ l v e) by apply lookup_insert_eq.
    by rewrite insert_insert_eq, Hback.
Qed.

Lemma push_then_pop_witness :
  Storage.lpop "l" (Storage.lpush "l" "z" three_variant_store).2
  = (Some "z", three_variant_store)
  ∧ Storage.rpop "l" (Storage.rpush "l" "z" three_variant_store).2
    = (Some "z", three_variant_store).
Proof.
  destruct (push_then_pop "l" "z" ["a"] (-1) three_variant_store)
    as (_ & Hl & _ & Hr); [reflexivity |].
  split; [exact Hl | exact Hr].
Defined.

(** X4.  A push or [sadd] on a key that is not stored creates the
    container with the one element and without expiry: the operation
    answers true, the store grows by one entry, [ttl] answers -1, and a pop
    of that element leaves the key behind with an empty list. *)
Theorem write_creates_container (now : Z) (k v : string) (st : Storage.t) :
  st !! k = None →
  Storage.lpush k v st = (true, <[k := mkValue (ListData [v]) (-1)]> st)
  ∧ Storage.rpush k v st = (true, <[k := mkValue (ListData [v]) (-1)]> st)
  ∧ Storage.sadd k v st = (true, <[k := mkValue (SetData {[v]}) (-1)]> st)
  ∧ Storage.dbsize (Storage.lpush k v st).2 = S (Storage.dbsize st)
  ∧ Storage.llen k (Storage.lpush k v st).2 = 1
  ∧ Storage.scard k (Storage.sadd k v st).2 = 1
  ∧ Storage.ttl now k (Storage.lpush k v st).2 = -1
  ∧ Storage.lpop k (Storage.lpush k v st).2
    = (Some v, <[k := mkValue (ListData []) (-1)]> st).
Proof.
  intros Hk.
  assert (Hl : Storage.lpush k v st
               = (true, <[k := mkValue (ListData [v]) (-1)]> st)).
  { unfold Storage.lpush, Storage.get_or_create. rewrite Hk; simpl.
    by rewrite insert_insert_eq. }
  assert (Hr : Storage.rpush k v st
               = (true, <[k := mkValue (ListData [v]) (-1)]> st)).
  { unfold Storage.rpush, Storage.get_or_create. rewrite Hk; simpl.
    by rewrite insert_insert_eq. }
  assert (Hs : Storage.sadd k v st
               = (true, <[k := mkValue (SetData {[v]}) (-1)]> st)).
  { unfold Storage.sadd, Storage.get_or_create. rewrite Hk; simpl.
    rewrite insert_insert_eq, (right_id_L ∅ (∪)).
    by rewrite bool_decide_eq_true_2 by apply not_elem_of_empty. }
  rewrite Hl, Hr, Hs; cbn [snd].
  split; [done |]. split; [done |]. split; [done |].
  split; [unfold Storage.dbsize; by apply map_size_insert_None |].
  split; [by rewrite (llen_lookup k _ [v] (-1)) by apply lookup_insert_eq |].
  split.
  { unfold Storage.scard. rewrite lookup_insert_eq; cbn [data].
    by rewrite size_singleton. }
  split; [unfold Storage.ttl; by rewrite lookup_insert_eq |].
  rewrite (lpop_front k _ v [] (-1)) by apply lookup_insert_eq.
  by rewrite insert_insert_eq.
Qed.

Lemma write_creates_container_witness :
  Storage.lpush "n" "z" plain_string_store
  = (true, <["n" := mkValue (ListData ["z"]) (-1)]> plain_string_store).
Proof.
  destruct (write_creates_container 0 "n" "z" plain_string_store)
    as (Hl & _); [reflexivity | exact Hl].
Defined.

(** ** Storage: ranges and lengths of lists *)

(** On a list that is not empty [lrange] returns the elements between the
    clamped indices, both ends included. *)
Lemma lrange_segment key start stop (st : Storage.t) l e :
  st !! key = Some (mkValue (ListData l) e) →
  l ≠ [] → Z.of_nat (length l) <= 2147483647 →
  let '(a, b) := Storage.lrange_bounds (Z.of_nat (length l)) start stop in
  0 <= a < Z.of_nat (length l) ∧ 0 <= b < Z.of_nat (length l)
  ∧ Storage.lrange key start stop st
    = Returns (Some (if a >? b then []
                     else take (Z.to_nat (b + 1 - a)) (drop (Z.to_nat a) l))).
Proof.
  intros H Hne Hlen.
  assert (0 < Z.of_nat (length l)) by (destruct l; [done | simpl; lia]).
  unfold Storage.lrange. rewrite H. cbn [data].
  rewrite static_cast_int_small by lia.
  unfold Storage.lrange_bounds.
  set (a := Z.max 0 (Z.min _ _)). set (b := Z.max 0 (Z.min _ _)).
  assert (0 <= a < Z.of_nat (length l)) by (unfold a; lia).
  assert (0 <= b < Z.of_nat (length l)) by (unfold b; lia).
  split; [done |]. split; [done |].
  destruct (Z.gtb_spec a b); [done |].
  unfold Storage.vector_range.
  replace (0 <=? a) with true by (symmetry; apply Z.leb_le; lia).
  replace (a <=? b + 1) with true by (symmetry; apply Z.leb_le; lia).
  replace (b + 1 <=? Z.of_nat (length l)) with true
    by (symmetry; apply Z.leb_le; lia).
  done.
Qed.

(** X5.  On a list of n > 0 elements, [lrange k 0 -1] returns the whole
    list in order and, for 1 <= m <= n, [lrange k -m -1] returns its last m
    elements. *)
Theorem lrange_whole_and_tail (k : string) (l : list string) (e m : Z)
    (st : Storage.t) :
  st !! k = Some (mkValue (ListData l) e) →
  l ≠ [] → Z.of_nat (length l) <= 2147483647 →
  1 <= m <= Z.of_nat (length l) →
  Storage.lrange k 0 (-1) st = Returns (Some l)
  ∧ Storage.lrange k (- m) (-1) st
    = Returns (Some (drop (length l - Z.to_nat m) l)).
Proof.
  intros Hk Hne Hlen Hm. split.
  - pose proof (lrange_segment k 0 (-1) st l e Hk Hne Hlen) as Hseg.
    unfold Storage.lrange_bounds in Hseg. cbn [Z.ltb Z.compare] in Hseg.
    replace (Z.max 0 (Z.min 0 (Z.of_nat (length l) - 1))) with 0 in Hseg
      by lia.
    replace (Z.max 0 (Z.min (-1 + Z.of_nat (length l))
                        (Z.of_nat (length l) - 1)))
      with (Z.of_nat (length l) - 1) in Hseg by lia.
    destruct Hseg as (_ & _ & ->).
    destruct (Z.gtb_spec 0 (Z.of_nat (length l) - 1)); [lia |].
    replace (Z.to_nat (Z.of_nat (length l) - 1 + 1 - 0)) with (length l)
      by lia.
    by rewrite drop_0, firstn_all.
  - pose proof (lrange_segment k (- m) (-1) st l e Hk Hne Hlen) as Hseg.
    unfold Storage.lrange_bounds in Hseg.
    replace (- m <? 0) with true in Hseg by (symmetry; apply Z.ltb_lt; lia).
    cbn [Z.ltb Z.compare] in Hseg.
    replace (Z.max 0 (Z.min (- m + Z.of_nat (length l))
                        (Z.of_nat (length l) - 1)))
      with (Z.of_nat (length l) - m) in Hseg by lia.
    replace (Z.max 0 (Z.min (-1 + Z.of_nat (length l))
                        (Z.of_nat (length l) - 1)))
      with (Z.of_nat (length l) - 1) in Hseg by lia.
    destruct Hseg as (_ & _ & ->).
    destruct (Z.gtb_spec (Z.of_nat (length l) - m) (Z.of_nat (length l) - 1));
      [lia |].
    replace (Z.to_nat (Z.of_nat (length l) - m)) with (length l - Z.to_nat m)%nat
      by lia.
    rewrite take_ge; [done |]. rewrite length_drop. lia.
Qed.

Lemma lrange_whole_and_tail_witness :
  let st : Storage.t := {["k" := mkValue (ListData ["a"; "b"; "c"; "d"]) (-1)]} in
  Storage.lrange "k" 0 (-1) st = Returns (Some ["a"; "b"; "c"; "d"])
  ∧ Storage.lrange "k" (-2) (-1) st = Returns (Some ["c"; "d"]).
Proof.
  intros st.
  apply (lrange_whole_and_tail "k" ["a"; "b"; "c"; "d"] (-1) 2 st);
    [reflexivity | done | simpl; lia | simpl; lia].
Defined.

(** X6.  Indices at or past the end of a list that is not empty are
    clamped to its last index: [lrange k start stop] with both indices
    beyond the end returns the last element alone, and with only [stop]
    beyond the end everything from [start] on. *)
Theorem lrange_past_the_end (k : string) (l : list string) (e start stop : Z)
    (st : Storage.t) :
  st !! k = Some (mkValue (ListData l) e) →
  l ≠ [] → Z.of_nat (length l) <= 2147483647 →
  Z.of_nat (length l) <= stop →
  (Z.of_nat (length l) <= start →
   Storage.lrange k start stop st = Returns (Some [List.last l ""]))
  ∧ (0 <= start < Z.of_nat (length l) →
     Storage.lrange k start stop st
     = Returns (Some (drop (Z.to_nat start) l))).
Proof.
  intros Hk Hne Hlen Hstop.
  pose proof (lrange_segment k start stop st l e Hk Hne Hlen) as Hseg.
  unfold Storage.lrange_bounds in Hseg.
  replace (stop <? 0) with false in Hseg by (symmetry; apply Z.ltb_ge; lia).
  replace (Z.max 0 (Z.min stop (Z.of_nat (length l) - 1)))
    with (Z.of_nat (length l) - 1) in Hseg by lia.
  split; intros Hstart;
    (replace (start <? 0) with false in Hseg
      by (symmetry; apply Z.ltb_ge; lia)).
  - replace (Z.max 0 (Z.min start (Z.of_nat (length l) - 1)))
      with (Z.of_nat (length l) - 1) in Hseg by lia.
    destruct Hseg as (_ & _ & ->).
    destruct (Z.gtb_spec (Z.of_nat (length l) - 1) (Z.of_nat (length l) - 1));
      [lia |].
    do 2 f_equal.
    destruct l as [| x l' _] using rev_ind; [done |].
    rewrite last_last, length_app; simpl.
    replace (Z.to_nat (Z.of_nat (length l' + 1) - 1)) with (length l') by lia.
    rewrite drop_app_length.
    by replace (Z.to_nat _) with 1%nat by lia.
  - replace (Z.max 0 (Z.min start (Z.of_nat (length l) - 1)))
      with start in Hseg by lia.
    destruct Hseg as (_ & _ & ->).
    destruct (Z.gtb_spec start (Z.of_nat (length l) - 1)); [lia |].
    rewrite take_ge; [done |]. rewrite length_drop. lia.
Qed.

Lemma lrange_past_the_end_witness :
  let st : Storage.t := {["k" := mkValue (ListData ["a"; "b"; "c"]) (-1)]} in
  Storage.lrange "k" 7 9 st = Returns (Some ["c"])
  ∧ Storage.lrange "k" 1 9 st = Returns (Some ["b"; "c"]).
Proof.
  intros st.
  destruct (lrange_past_the_end "k" ["a"; "b"; "c"] (-1) 7 9 st)
    as [Hlast _]; [reflexivity | done | simpl; lia | simpl; lia |].
  destruct (lrange_past_the_end "k" ["a"; "b"; "c"] (-1) 1 9 st)
    as [_ Hfrom]; [reflexivity | done | simpl; lia | simpl; lia |].
  split; [apply Hlast; simpl; lia | apply Hfrom; simpl; lia].
Defined.

(** X7.  A push on a key that holds a list of fewer than 2^31 - 1
    elements raises [llen] by one; [lpush] puts the value in front and
    [rpush] at the back, as [lrange k 0 -1] shows, and the expiration of
    the key is kept. *)
Theorem push_extends_list (k v : string) (l : list string) (e : Z)
    (st : Storage.t) :
  st !! k = Some (mkValue (ListData l) e) →
  Z.of_nat (length l) < 2147483647 →
  Storage.llen k (Storage.lpush k v st).2 = Storage.llen k st + 1
  ∧ Storage.llen k (Storage.rpush k v st).2 = Storage.llen k st + 1
  ∧ Storage.lrange k 0 (-1) (Storage.lpush k v st).2
    = Returns (Some (v :: l))
  ∧ Storage.lrange k 0 (-1) (Storage.rpush k v st).2
    = Returns (Some (l ++ [v]))
  ∧ (Storage.lpush k v st).2 !! k = Some (mkValue (ListData (v :: l)) e)
  ∧ (Storage.rpush k v st).2 !! k = Some (mkValue (ListData (l ++ [v])) e).
Proof.
  intros Hk Hlen.
  rewrite (lpush_list k v st l e Hk), (rpush_list k v st l e Hk).
  cbn [snd].
  assert (Hl : (<[k := mkValue (ListData (v :: l)) e]> st) !! k
               = Some (mkValue (ListData (v :: l)) e))
    by apply lookup_insert_eq.
  assert (Hr : (<[k := mkValue (ListData (l ++ [v])) e]> st) !! k
               = Some (mkValue (ListData (l ++ [v])) e))
    by apply lookup_insert_eq.
  rewrite (llen_lookup k _ _ e Hl), (llen_lookup k _ _ e Hr),
    (llen_lookup k st l e Hk).
  rewrite length_app; cbn [length].
  rewrite !static_cast_int_small by lia.
  split; [lia |]. split; [lia |].
  split.
  { apply (lrange_whole_and_tail k (v :: l) e 1 _ Hl); [done | |];
      simpl; lia. }
  split; [| done].
  apply (lrange_whole_and_tail k (l ++ [v]) e 1 _ Hr).
  - by destruct l.
  - rewrite length_app; simpl; lia.
  - rewrite length_app; simpl; lia.
Qed.

Lemma push_extends_list_witness :
  Storage.lrange "l" 0 (-1) (Storage.rpush "l" "z" three_variant_store).2
  = Returns (Some ["a"; "z"]).
Proof.
  destruct (push_extends_list "l" "z" ["a"] (-1) three_variant_store)
    as (_ & _ & _ & Hr & _); [reflexivity | simpl; lia | exact Hr].
Defined.

(** ** Storage: sets *)

Lemma sadd_set key member (st : Storage.t) s e :
  st !! key = Some (mkValue (SetData s) e) →
  Storage.sadd key member st
  = (bool_decide (member ∉ s),
     <[key := mkValue (SetData ({[member]} ∪ s)) e]> st).
Proof.
  intros H. unfold Storage.sadd.
  pose proof (get_or_create_found key st _ H) as Hg.
  change (type _) with SET in Hg. by rewrite Hg.
Qed.

Lemma srem_set key member (st : Storage.t) s e :
  st !! key = Some (mkValue (SetData s) e) →
  Storage.srem key member st
  = (bool_decide (member ∈ s),
     <[key := mkValue (SetData (s ∖ {[member]})) e]> st).
Proof. intros H. unfold Storage.srem. by rewrite H. Qed.

Lemma sadd_absent key member (st : Storage.t) :
  st !! key = None →
  Storage.sadd key member st
  = (true, <[key := mkValue (SetData {[member]}) (-1)]> st).
Proof.
  intros Hk. unfold Storage.sadd, Storage.get_or_create. rewrite Hk; simpl.
  rewrite insert_insert_eq, (right_id_L ∅ (∪)).
  by rewrite bool_decide_eq_true_2 by apply not_elem_of_empty.
Qed.

(** X8.  Adding the same member twice: whatever the store holds, the
    second [sadd] answers false and changes nothing, so [scard] is the same
    after it as before. *)
Theorem sadd_twice (k m : string) (st : Storage.t) :
  let st1 := (Storage.sadd k m st).2 in
  Storage.sadd k m st1 = (false, st1)
  ∧ Storage.scard k (Storage.sadd k m st1).2 = Storage.scard k st1.
Proof.
  intros st1.
  assert (H : Storage.sadd k m st1 = (false, st1)); [| by rewrite H].
  unfold st1. destruct (st !! k) as [[[str | l | s] e] |] eqn:Hk.
  - rewrite (sadd_wrong_type k m st _ Hk) by done.
    by apply (sadd_wrong_type k m st _ Hk).
  - rewrite (sadd_wrong_type k m st _ Hk) by done.
    by apply (sadd_wrong_type k m st _ Hk).
  - rewrite (sadd_set k m st s e Hk); cbn [snd].
    rewrite (sadd_set k m _ ({[m]} ∪ s) e) by apply lookup_insert_eq.
    rewrite insert_insert_eq. f_equal.
    + apply bool_decide_eq_false. intros Hn. apply Hn.
      apply elem_of_union_l. by apply elem_of_singleton.
    + do 3 f_equal. apply (anti_symm (⊆)).
      * apply union_least; [| done]. apply union_subseteq_l.
      * apply union_subseteq_r.
  - rewrite (sadd_absent k m st Hk); cbn [snd].
    rewrite (sadd_set k m _ {[m]} (-1)) by apply lookup_insert_eq.
    rewrite insert_insert_eq. f_equal.
    + apply bool_decide_eq_false. intros Hn. apply Hn.
      by apply elem_of_singleton.
    + do 3 f_equal. apply (anti_symm (⊆)).
      * by apply union_least.
      * apply union_subseteq_r.
Qed.

(** X9.  On a key that holds a set, [sadd] answers true exactly when the
    member is new and [srem] exactly when it was present; afterwards
    [sismember] answers true, respectively false, for that member and is
    unchanged for every other one, and [smembers] returns the set with the
    member added, respectively removed. *)
Theorem set_membership (k m m' : string) (s : gset string) (e : Z)
    (st : Storage.t) :
  st !! k = Some (mkValue (SetData s) e) →
  Storage.sismember k m st = bool_decide (m ∈ s)
  ∧ (Storage.sadd k m st).1 = negb (Storage.sismember k m st)
  ∧ (Storage.srem k m st).1 = Storage.sismember k m st
  ∧ Storage.sismember k m (Storage.sadd k m st).2 = true
  ∧ Storage.sismember k m (Storage.srem k m st).2 = false
  ∧ Storage.smembers k (Storage.sadd k m st).2 = Some ({[m]} ∪ s)
  ∧ Storage.smembers k (Storage.srem k m st).2 = Some (s ∖ {[m]})
  ∧ (m' ≠ m →
     Storage.sismember k m' (Storage.sadd k m st).2
     = Storage.sismember k m' st
     ∧ Storage.sismember k m' (Storage.srem k m st).2
       = Storage.sismember k m' st).
Proof.
  intros Hk.
  rewrite (sadd_set k m st s e Hk), (srem_set k m st s e Hk); cbn [fst snd].
  unfold Storage.sismember, Storage.smembers.
  rewrite Hk, !lookup_insert_eq; cbn [data].
  split; [done |].
  split; [by rewrite bool_decide_not |].
  split; [done |].
  split.
  { apply bool_decide_eq_true, elem_of_union_l. by apply elem_of_singleton. }
  split.
  { apply bool_decide_eq_false. rewrite elem_of_difference, elem_of_singleton.
    by intros [_ ?]. }
  split; [done |]. split; [done |].
  intros Hne. split; apply bool_decide_ext.
  - rewrite elem_of_union, elem_of_singleton.
    split; [by intros [? | ?] | by right].
  - rewrite elem_of_difference, elem_of_singleton.
    split; [by intros [? _] | done].
Qed.

Lemma set_membership_witness :
  Storage.sismember "s" "m" three_variant_store = true
  ∧ (Storage.sadd "s" "m" three_variant_store).1 = false
  ∧ Storage.sismember "s" "m" (Storage.srem "s" "m" three_variant_store).2
    = false.
Proof.
  destruct (set_membership "s" "m" "x" {["m"]} (-1) three_variant_store)
    as (Hin & Hadd & _ & _ & Hrem & _); [reflexivity |].
  split; [by rewrite Hin |]. split; [by rewrite Hadd, Hin | exact Hrem].
Defined.

(** ** Storage: expiration *)

(** X10.  [ttl] never answers 0 or a negative number other than -1 and
    -2: the answer is -2, -1, or a positive [int]; it is -1 only for a
    stored value without expiration instant. *)
Theorem ttl_range (now : Z) (k : string) (st : Storage.t) :
  let r := Storage.ttl now k st in
  (r = -2 ∨ r = -1 ∨ 0 < r <= 2147483647)
  ∧ (r = -1 ↔ ∃ v, st !! k = Some v ∧ expires_at v = -1).
Proof.
  unfold Storage.ttl. destruct (st !! k) as [v |] eqn:Hk.
  2: { split; [by left |]. split; [done | by intros (? & ? & _)]. }
  unfold is_expired. destruct (Z.eqb_spec (expires_at v) (-1)) as [He | He].
  { split; [right; by left | split; eauto]. }
  assert (Hno : ¬ ∃ v0, Some v = Some v0 ∧ expires_at v0 = -1)
    by (intros (? & [= <-] & ?); done).
  destruct (now >? expires_at v); [split; [by left | split; done] |].
  set (remaining := static_cast_int _).
  assert (-2147483648 <= remaining <= 2147483647).
  { unfold remaining, static_cast_int.
    pose proof (Z.mod_pos_bound (expires_at v - now + 2147483648) 4294967296).
    lia. }
  destruct (Z.gtb_spec remaining 0).
  - split; [right; right; lia | split; [lia | done]].
  - split; [by left | split; done].
Qed.

(** X11.  After [expire k seconds] at clock reading [now >= 0] with a
    positive [int] count, the key counts down: while fewer than [seconds]
    seconds have passed [ttl] answers the seconds left and [exists] answers
    true; once more than [seconds] have passed [ttl] answers -2 and
    [exists] answers false and removes the key. *)
Theorem expire_counts_down (now seconds elapsed : Z) (k : string) (v : Value)
    (st : Storage.t) :
  st !! k = Some v →
  0 <= now → 0 < seconds <= 2147483647 → 0 <= elapsed →
  let st' := (Storage.expire now k seconds st).2 in
  (Storage.expire now k seconds st).1 = true
  ∧ st' !! k = Some (mkValue (data v) (now + seconds))
  ∧ (elapsed < seconds →
     Storage.ttl (now + elapsed) k st' = seconds - elapsed
     ∧ Storage.exists_ (now + elapsed) k st' = (true, st'))
  ∧ (seconds < elapsed →
     Storage.ttl (now + elapsed) k st' = -2
     ∧ Storage.exists_ (now + elapsed) k st' = (false, delete k st)).
Proof.
  intros Hk Hnow Hsec Hel st'. unfold st'.
  rewrite (expire_lookup now k seconds st v Hk); cbn [fst snd].
  set (v' := mkValue (data v) (now + seconds)).
  assert (Hk' : <[k := v']> st !! k = Some v') by apply lookup_insert_eq.
  split; [done |]. split; [done |]. split.
  - intros Hlt.
    assert (Hlive : is_expired (now + elapsed) v' = false).
    { unfold is_expired, v'; cbn [expires_at].
      destruct (Z.eqb_spec (now + seconds) (-1)); [done |].
      rewrite Z.gtb_ltb. apply Z.ltb_ge. lia. }
    split; [| by apply (exists_live _ k _ v')].
    unfold Storage.ttl. rewrite Hk', Hlive. unfold v'; cbn [expires_at].
    destruct (Z.eqb_spec (now + seconds) (-1)); [lia |].
    rewrite static_cast_int_small by lia.
    destruct (Z.gtb_spec (now + seconds - (now + elapsed)) 0); lia.
  - intros Hgt.
    assert (Hdead : is_expired (now + elapsed) v' = true)
      by (apply is_expired_past; lia).
    split; [by apply (ttl_expired _ k _ v') |].
    rewrite (exists_expired _ k _ v' Hk' Hdead).
    by rewrite delete_insert_eq.
Qed.

Lemma expire_counts_down_witness :
  Storage.ttl (100 + 3) "k" (Storage.expire 100 "k" 10 plain_string_store).2
  = 10 - 3.
Proof.
  destruct (expire_counts_down 100 10 3 "k" plain_string plain_string_store)
    as (_ & _ & Hbefore & _); [reflexivity | lia | lia | lia |].
  apply Hbefore. lia.
Defined.

(** X12.  [exists] answers true for exactly the keys that [keys] lists at
    the same clock reading, and a key for which [get] returns a value is
    among them. *)
Theorem exists_iff_listed (now : Z) (k : string) (st : Storage.t) :
  ((Storage.exists_ now k st).1 = true ↔ k ∈ Storage.keys now st)
  ∧ (is_Some (Storage.get now k st).1 → k ∈ Storage.keys now st).
Proof.
  rewrite elem_of_keys. unfold Storage.exists_, Storage.get.
  destruct (st !! k) as [v |] eqn:Hk.
  - destruct (is_expired now v) eqn:He; cbn [fst].
    + split; [split; [done |] | by intros [? ?]].
      intros (v' & [= <-] & He'). congruence.
    + split; [split; eauto | eauto].
  - split; [split; [done | by intros (? & ? & _)] | by intros [? ?]].
Qed.

(** X13.  [get] and [exists] never remove a live key: the only change
    either makes to the store is deleting the requested key, and it does so
    exactly when that key is stored with an expired value, in which case
    the answer is "absent" and the store has one entry less. *)
Theorem reads_remove_only_expired (now : Z) (k : string) (st : Storage.t) :
  (Storage.get now k st).2 = (Storage.exists_ now k st).2
  ∧ ((∃ v, st !! k = Some v ∧ is_expired now v = true)
     → (Storage.get now k st) = (None, delete k st)
       ∧ Storage.exists_ now k st = (false, delete k st)
       ∧ Storage.dbsize st = S (Storage.dbsize (delete k st)))
  ∧ (¬ (∃ v, st !! k = Some v ∧ is_expired now v = true)
     → (Storage.get now k st).2 = st).
Proof.
  split; [| split].
  - unfold Storage.get, Storage.exists_.
    destruct (st !! k) as [v |]; [| done].
    destruct (is_expired now v); [done |]. by destruct (data v).
  - intros (v & Hk & He).
    split; [by apply (get_expired now k st v) |].
    split; [by apply (exists_expired now k st v) |].
    unfold Storage.dbsize. rewrite map_size_delete, Hk.
    assert (size st ≠ 0%nat).
    { intros Hz. apply map_size_empty_inv in Hz. by rewrite Hz in Hk. }
    simpl. lia.
  - intros Hno. unfold Storage.get.
    destruct (st !! k) as [v |] eqn:Hk; [| done].
    destruct (is_expired now v) eqn:He; [exfalso; eauto |].
    by destruct (data v).
Qed.

(** ** Protocol: command names and request lines *)

(** X14.  [command_to_string] and [string_to_command] are inverse to each
    other: every command is found again from its name, and a string that
    [string_to_command] recognises is exactly the name of the command
    found (the lookup itself is case sensitive). *)
Theorem command_name_round_trip (c : CommandType) (s : string) :
  string_to_command (command_to_string c) = c
  ∧ (string_to_command s ≠ CMD_UNKNOWN →
     command_to_string (string_to_command s) = s).
Proof.
  split; [by destruct c |].
  unfold string_to_command.
  repeat (match goal with
          | |- context [String.eqb s ?name] =>
              destruct (String.eqb_spec s name) as [-> | _]; [done |]
          end).
  done.
Qed.

Lemma list_ascii_app s t :
  list_ascii_of_string (s +:+ t)
  = list_ascii_of_string s ++ list_ascii_of_string t.
Proof.
  induction s as [|c s IH]; [done |].
  change (String c s +:+ t) with (String c (s +:+ t)). simpl. by rewrite IH.
Qed.

Lemma no_space_snoc cur c :
  no_space cur → isspace c = false → no_space (cur +:+ String c "").
Proof.
  intros Hcur Hc. unfold no_space. rewrite list_ascii_app.
  apply Forall_app. split; [done |]. by repeat constructor.
Qed.

Lemma snoc_not_empty cur c : cur +:+ String c "" ≠ "".
Proof. by destruct cur. Qed.

Lemma extract_tokens_are_tokens cur input :
  no_space cur → Forall is_token (extract_tokens cur input).
Proof.
  revert cur. induction input as [|c input IH]; intros cur Hcur; simpl.
  - destruct cur; [apply Forall_nil_2 |].
    apply Forall_cons_2; [by split | apply Forall_nil_2].
  - destruct (isspace c) eqn:Hc.
    + destruct cur; [apply IH; apply Forall_nil_2 |].
      apply Forall_cons_2; [by split |]. apply IH; apply Forall_nil_2.
    + apply IH. by apply no_space_snoc.
Qed.

(** X15.  Whatever the line, the command token and every argument that
    [parse_request] yields are non-empty and free of white space, and a
    line of white space only (or an empty one) gives the unknown command
    without arguments. *)
Theorem parsed_arguments_are_tokens (input : string) :
  Forall is_token (args (parse_request input))
  ∧ (Forall (λ c, isspace c = true) (list_ascii_of_string input) →
     parse_request input = mkRequest CMD_UNKNOWN []).
Proof.
  split.
  - unfold parse_request.
    pose proof (extract_tokens_are_tokens "" input (Forall_nil_2 _)) as Htok.
    destruct (extract_tokens "" input) as [| cmd rest]; [constructor |].
    by apply Forall_cons in Htok as [_ ?].
  - intros Hblank. unfold parse_request.
    assert (extract_tokens "" input = []) as ->; [| done].
    induction input as [|c input IH]; [done |].
    simpl in *. apply Forall_cons in Hblank as [Hc Hrest].
    rewrite Hc. by apply IH.
Qed.

Lemma extract_tokens_word cur word rest :
  no_space word →
  extract_tokens cur (word +:+ rest) = extract_tokens (cur +:+ word) rest.
Proof.
  revert cur. induction word as [|c word IH]; intros cur Hword.
  - by rewrite append_empty_r.
  - change (String c word +:+ rest) with (String c (word +:+ rest)).
    apply Forall_cons in Hword as [Hc Hword]. simpl. rewrite Hc.
    rewrite IH by done. by rewrite append_assoc.
Qed.

Lemma extract_tokens_joined ws :
  Forall is_token ws → extract_tokens "" (join_words ws) = ws.
Proof.
  induction 1 as [| w ws [Hne Hw] Hws IH]; [done |].
  unfold join_words in *. destruct ws as [| w' ws].
  - simpl. rewrite <- (append_empty_r w) at 1.
    rewrite extract_tokens_word by done. simpl. by destruct w.
  - change (String.concat " " (w :: w' :: ws))
      with (w +:+ String " " (String.concat " " (w' :: ws))).
    rewrite extract_tokens_word by done.
    change ("" +:+ w) with w. cbn [extract_tokens].
    change (isspace " ") with true. cbn match.
    rewrite IH. by destruct w.
Qed.

(** X16.  A line made of a command word and arguments, none of them empty
    or containing white space, joined by single blanks, as the client sends
    it, is parsed into exactly those arguments, and into the command whose
    name the command word spells in any mix of upper and lower case. *)
Theorem parse_request_round_trip (c : CommandType) (word : string)
    (arguments : list string) :
  is_token word → Forall is_token arguments →
  transform_toupper word = command_to_string c →
  parse_request (join_words (word :: arguments)) = mkRequest c arguments.
Proof.
  intros Hword Hargs Hname. unfold parse_request.
  rewrite extract_tokens_joined by (by constructor).
  rewrite Hname. by destruct c.
Qed.

Lemma parse_request_round_trip_witness :
  parse_request (join_words ["lRange"; "k"; "0"; "-1"])
  = mkRequest CMD_LRANGE ["k"; "0"; "-1"].
Proof.
  apply (parse_request_round_trip CMD_LRANGE "lRange" ["k"; "0"; "-1"]).
  - split; [done |]. unfold no_space; simpl. by repeat constructor.
  - repeat constructor; try done; unfold no_space; simpl;
      by repeat constructor.
  - reflexivity.
Defined.

(** ** Protocol: framing of responses *)

Lemma bulk_items_end items :
  items ≠ [] →
  ∃ body, foldr (λ item rest, Spec.bulk item +:+ rest) "" items
          = body +:+ CRLF.
Proof.
  induction items as [| item [| item' items] IH]; intros Hne; [done | |].
  - simpl. unfold Spec.bulk. eexists.
    rewrite append_empty_r, <- !append_assoc. reflexivity.
  - destruct IH as [body Hbody]; [done |].
    cbn [foldr] in *. rewrite Hbody. eexists.
    rewrite <- append_assoc. reflexivity.
Qed.

(** X17.  Every response, of whatever status and payload, is written as
    its type sigil followed by text that ends with carriage return and line
    feed: [+], [$] or [*] for OK with no, one or several strings, [$] for
    not-found, and [-] for the three error statuses. *)
Theorem response_framing (r : Response) :
  ∃ body, serialize_response r = String (sigil r) (body +:+ CRLF).
Proof.
  destruct r as [st d]. unfold serialize_response, sigil.
  cbn [status Protocol.data].
  destruct st.
  - destruct d as [| x [| y d]].
    + by exists "OK".
    + eexists. change ("$" +:+ ?x) with (String "$" x). f_equal.
      rewrite <- !append_assoc. reflexivity.
    + rewrite fold_write_bulk.
      destruct (bulk_items_end (x :: y :: d)) as [body ->]; [done |].
      eexists. change ("*" +:+ ?x) with (String "*" x).
      change (String "*" ?x +:+ ?y) with (String "*" (x +:+ y)). f_equal.
      rewrite <- !append_assoc. reflexivity.
  - eexists. change ("-ERR " +:+ ?x) with (String "-" ("ERR " +:+ x)).
    f_equal. rewrite <- append_assoc. reflexivity.
  - by exists "-1".
  - by exists "WRONGTYPE Operation against a key holding the wrong kind of value".
  - by exists "ERR wrong number of arguments".
Qed.

(** ** Protocol: integers as text *)

Lemma read_digits_of_uint_acc d acc :
  read_digits (NilEmpty.string_of_uint d) (Z.pos acc)
  = Z.pos (Pos.of_uint_acc d acc).
Proof.
  revert acc. induction d; intros acc; cbn [NilEmpty.string_of_uint];
    [reflexivity | ..];
    cbn [read_digits]; cbv [digit_value nat_of_ascii]; cbn;
    rewrite <- IHd; f_equal; lia.
Qed.

Lemma read_digits_of_uint d :
  read_digits (NilEmpty.string_of_uint d) 0 = Z.of_N (Pos.of_uint d).
Proof.
  induction d; cbn [NilEmpty.string_of_uint Pos.of_uint];
    [reflexivity | ..];
    cbn [read_digits]; cbv [digit_value nat_of_ascii]; cbn;
    [exact IHd | ..]; apply read_digits_of_uint_acc.
Qed.

(** [stoi] on a string that starts with a digit, and on a minus sign
    followed by one. *)
Lemma stoi_digits c s d :
  digit_value c = Some d →
  stoi (String c s)
  = (let v := read_digits (String c s) 0 in
     if (-2147483648 <=? v) && (v <=? 2147483647) then Some v else None)
  ∧ stoi (String "-" (String c s))
    = (let v := - read_digits (String c s) 0 in
       if (-2147483648 <=? v) && (v <=? 2147483647) then Some v else None).
Proof.
  intros Hd. unfold stoi. cbn [skip_space].
  change (isspace "-") with false. cbn match.
  assert (Hsp : isspace c = false).
  { destruct c as [[|] [|] [|] [|] [|] [|] [|] [|]]; try done;
      by vm_compute in Hd. }
  rewrite Hsp, Hd. split; [| done].
  destruct c as [[|] [|] [|] [|] [|] [|] [|] [|]]; try done;
    by vm_compute in Hd.
Qed.

Lemma string_of_uint_digit p :
  ∃ c s d, NilEmpty.string_of_uint (Pos.to_uint p) = String c s
           ∧ digit_value c = Some d.
Proof.
  pose proof (DecimalPos.Unsigned.to_uint_nonnil p) as Hnn.
  destruct (Pos.to_uint p); [done | ..]; cbn [NilEmpty.string_of_uint];
    by do 3 eexists.
Qed.

Lemma to_string_pos p :
  to_string (Z.pos p) = NilEmpty.string_of_uint (Pos.to_uint p)
  ∧ to_string (Z.neg p)
    = String "-" (NilEmpty.string_of_uint (Pos.to_uint p)).
Proof.
  pose proof (DecimalPos.Unsigned.to_uint_nonnil p) as Hnn.
  unfold to_string, Z.to_int, NilZero.string_of_int, NilZero.string_of_uint.
  by destruct (Pos.to_uint p).
Qed.

(** X18.  The decimal text that [std::to_string] writes for an [int] is
    read back by [std::stoi] as the same number: integer replies and
    integer arguments survive the trip through the wire. *)
Theorem stoi_to_string (z : Z) :
  -2147483648 <= z <= 2147483647 → stoi (to_string z) = Some z.
Proof.
  intros Hz. destruct z as [| p | p]; [reflexivity | |].
  - destruct (to_string_pos p) as [-> _].
    destruct (string_of_uint_digit p) as (c & s & d & Hs & Hd).
    pose proof (read_digits_of_uint (Pos.to_uint p)) as Hv.
    rewrite DecimalPos.Unsigned.of_to in Hv. rewrite Hs in *.
    destruct (stoi_digits c s d Hd) as [-> _]. rewrite Hv. cbn zeta.
    change (Z.of_N (N.pos p)) with (Z.pos p).
    replace (-2147483648 <=? Z.pos p) with true
      by (symmetry; apply Z.leb_le; lia).
    by replace (Z.pos p <=? 2147483647) with true
      by (symmetry; apply Z.leb_le; lia).
  - destruct (to_string_pos p) as [_ ->].
    destruct (string_of_uint_digit p) as (c & s & d & Hs & Hd).
    pose proof (read_digits_of_uint (Pos.to_uint p)) as Hv.
    rewrite DecimalPos.Unsigned.of_to in Hv. rewrite Hs in *.
    destruct (stoi_digits c s d Hd) as [_ ->]. rewrite Hv. cbn zeta.
    change (- Z.of_N (N.pos p)) with (Z.neg p).
    replace (-2147483648 <=? Z.neg p) with true
      by (symmetry; apply Z.leb_le; lia).
    by replace (Z.neg p <=? 2147483647) with true
      by (symmetry; apply Z.leb_le; lia).
Qed.

Lemma stoi_to_string_witness : stoi (to_string (-2147483648)) = Some (-2147483648).
Proof. apply stoi_to_string. lia. Defined.

(** ** Dispatcher: replies on missing keys, wrong types and bad numbers *)

Lemma lrange_absent key start stop (st : Storage.t) :
  st !! key = None → Storage.lrange key start stop st = Returns None.
Proof. intros H. unfold Storage.lrange. by rewrite H. Qed.

Lemma lrange_string key start stop (st : Storage.t) s e :
  st !! key = Some (mkValue (StringData s) e) →
  Storage.lrange key start stop st = Returns None.
Proof. intros H. unfold Storage.lrange. by rewrite H. Qed.

(** X19.  On a key that is not stored no command creates an entry except
    SET and the pushes and SADD: GET, LPOP, RPOP, SMEMBERS and LRANGE with
    any two indices [std::stoi] reads reply not-found, DEL, EXISTS, SREM,
    SISMEMBER, LLEN, SCARD and EXPIRE with any count [std::stoi] reads reply
    "0", TTL replies "-2", and the store is the same afterwards. *)
Theorem replies_on_missing_key (now start stop seconds : Z)
    (k m a b s : string) (st : Storage.t) :
  st !! k = None →
  stoi a = Some start → stoi b = Some stop → stoi s = Some seconds →
  let not_found c := Returns (Response_status NOT_FOUND, st, [c]) in
  let zero c := Returns (Response_string OK "0", st, [c]) in
  execute_command now (mkRequest CMD_GET [k]) st = not_found (call_get k)
  ∧ execute_command now (mkRequest CMD_LPOP [k]) st = not_found (call_lpop k)
  ∧ execute_command now (mkRequest CMD_RPOP [k]) st = not_found (call_rpop k)
  ∧ execute_command now (mkRequest CMD_LRANGE [k; a; b]) st
    = not_found (call_lrange k start stop)
  ∧ execute_command now (mkRequest CMD_SMEMBERS [k]) st
    = not_found (call_smembers k)
  ∧ execute_command now (mkRequest CMD_DEL [k]) st = zero (call_del k)
  ∧ execute_command now (mkRequest CMD_EXISTS [k]) st = zero (call_exists k)
  ∧ execute_command now (mkRequest CMD_EXPIRE [k; s]) st
    = zero (call_expire k seconds)
  ∧ execute_command now (mkRequest CMD_SREM [k; m]) st = zero (call_srem k m)
  ∧ execute_command now (mkRequest CMD_SISMEMBER [k; m]) st
    = zero (call_sismember k m)
  ∧ execute_command now (mkRequest CMD_LLEN [k]) st = zero (call_llen k)
  ∧ execute_command now (mkRequest CMD_SCARD [k]) st = zero (call_scard k)
  ∧ execute_command now (mkRequest CMD_TTL [k]) st
    = Returns (Response_string OK "-2", st, [call_ttl k]).
Proof.
  intros Hk Ha Hb Hs not_found zero. unfold not_found, zero.
  repeat apply conj.
  - dispatch. by rewrite (get_absent now k st Hk).
  - dispatch. by rewrite (lpop_absent k st Hk).
  - dispatch. unfold Storage.rpop. by rewrite Hk.
  - unfold execute_command, nargs, arg; cbn [command args length nth].
    destruct (decide _); [done |]. rewrite Ha, Hb.
    unfold mbind, Exec_bind, query_partial.
    by rewrite (lrange_absent k start stop st Hk).
  - dispatch. unfold Storage.smembers. by rewrite Hk.
  - dispatch. unfold Storage.del. rewrite Hk, delete_id by done.
    by rewrite bool_decide_eq_false_2 by (by intros [? ?]).
  - dispatch. by rewrite (exists_absent now k st Hk).
  - unfold execute_command, nargs, arg; cbn [command args length nth].
    destruct (decide _); [done |]. rewrite Hs.
    unfold mbind, Exec_bind, invoke, Storage.expire. by rewrite Hk.
  - dispatch. unfold Storage.srem. by rewrite Hk.
  - dispatch. unfold Storage.sismember. by rewrite Hk.
  - dispatch. unfold Storage.llen. by rewrite Hk.
  - dispatch. unfold Storage.scard. by rewrite Hk.
  - dispatch. by rewrite (ttl_absent now k st Hk).
Qed.

Lemma replies_on_missing_key_witness :
  execute_command 5 (mkRequest CMD_LRANGE ["zz"; "2"; "-3"]) plain_string_store
  = Returns (Response_status NOT_FOUND, plain_string_store,
             [call_lrange "zz" 2 (-3)])
  ∧ execute_command 5 (mkRequest CMD_EXPIRE ["zz"; "+7"]) plain_string_store
    = Returns (Response_string OK "0", plain_string_store,
               [call_expire "zz" 7]).
Proof.
  destruct (replies_on_missing_key 5 2 (-3) 7 "zz" "m" "2" "-3" "+7"
              plain_string_store)
    as (_ & _ & _ & Hrange & _ & _ & _ & Hexpire & _); try reflexivity.
  split; [exact Hrange | exact Hexpire].
Defined.

(** X20.  On a key that holds a String, the list and set commands other
    than the pushes never report the wrong type: LPOP, RPOP, SMEMBERS and
    LRANGE with any two indices [std::stoi] reads reply not-found, LLEN,
    SCARD, SREM and SISMEMBER reply "0", and the String is left as it
    was. *)
Theorem reads_on_string_key (now e start stop : Z) (k m s a b : string)
    (st : Storage.t) :
  st !! k = Some (mkValue (StringData s) e) →
  stoi a = Some start → stoi b = Some stop →
  let not_found c := Returns (Response_status NOT_FOUND, st, [c]) in
  let zero c := Returns (Response_string OK "0", st, [c]) in
  execute_command now (mkRequest CMD_LPOP [k]) st = not_found (call_lpop k)
  ∧ execute_command now (mkRequest CMD_RPOP [k]) st = not_found (call_rpop k)
  ∧ execute_command now (mkRequest CMD_LRANGE [k; a; b]) st
    = not_found (call_lrange k start stop)
  ∧ execute_command now (mkRequest CMD_SMEMBERS [k]) st
    = not_found (call_smembers k)
  ∧ execute_command now (mkRequest CMD_SREM [k; m]) st = zero (call_srem k m)
  ∧ execute_command now (mkRequest CMD_SISMEMBER [k; m]) st
    = zero (call_sismember k m)
  ∧ execute_command now (mkRequest CMD_LLEN [k]) st = zero (call_llen k)
  ∧ execute_command now (mkRequest CMD_SCARD [k]) st = zero (call_scard k).
Proof.
  intros Hk Ha Hb not_found zero. unfold not_found, zero.
  repeat apply conj.
  - dispatch. unfold Storage.lpop. by rewrite Hk.
  - dispatch. unfold Storage.rpop. by rewrite Hk.
  - unfold execute_command, nargs, arg; cbn [command args length nth].
    destruct (decide _); [done |]. rewrite Ha, Hb.
    unfold mbind, Exec_bind, query_partial.
    by rewrite (lrange_string k start stop st s e Hk).
  - dispatch. unfold Storage.smembers. by rewrite Hk.
  - dispatch. unfold Storage.srem. by rewrite Hk.
  - dispatch. unfold Storage.sismember. by rewrite Hk.
  - dispatch. unfold Storage.llen. by rewrite Hk.
  - dispatch. unfold Storage.scard. by rewrite Hk.
Qed.

Lemma reads_on_string_key_witness :
  execute_command 5 (mkRequest CMD_LRANGE ["k"; "1"; "4"]) plain_string_store
  = Returns (Response_status NOT_FOUND, plain_string_store,
             [call_lrange "k" 1 4])
  ∧ execute_command 5 (mkRequest CMD_LPOP ["k"]) plain_string_store
    = Returns (Response_status NOT_FOUND, plain_string_store,
               [call_lpop "k"]).
Proof.
  destruct (reads_on_string_key 5 (-1) 1 4 "k" "m" "v" "1" "4"
              plain_string_store)
    as (Hpop & _ & Hrange & _); try reflexivity.
  split; [exact Hrange | exact Hpop].
Defined.

(** X21.  A count or index that [std::stoi] cannot read makes EXPIRE
    reply the error "invalid timeout value" and LRANGE the error "invalid
    index", whichever of the two indices is bad, without any call on the
    store. *)
Theorem non_numeric_argument (now : Z) (k bad other : string)
    (st : Storage.t) :
  stoi bad = None →
  execute_command now (mkRequest CMD_EXPIRE [k; bad]) st
  = Returns (Response_string ERROR "invalid timeout value", st, [])
  ∧ execute_command now (mkRequest CMD_LRANGE [k; bad; other]) st
    = Returns (Response_string ERROR "invalid index", st, [])
  ∧ execute_command now (mkRequest CMD_LRANGE [k; other; bad]) st
    = Returns (Response_string ERROR "invalid index", st, [])
  ∧ serialize_response (Response_string ERROR "invalid index")
    = "-ERR invalid index" +:+ CRLF.
Proof.
  intros Hbad.
  repeat apply conj; [| | | done];
    unfold execute_command, nargs, arg; cbn [command args length nth];
    (destruct (decide _); [done |]); rewrite ?Hbad; try done.
  by destruct (stoi other).
Qed.

Lemma non_numeric_argument_witness :
  execute_command 5 (mkRequest CMD_EXPIRE ["k"; "soon"]) plain_string_store
  = Returns (Response_string ERROR "invalid timeout value",
             plain_string_store, []).
Proof.
  destruct (non_numeric_argument 5 "k" "soon" "0" plain_string_store)
    as (Hexp & _); [reflexivity | exact Hexp].
Defined.

(** Splits on the result of the storage call a dispatch makes. *)
Ltac storage_cases :=
  repeat match goal with
    | |- context [stoi ?a] => destruct (stoi a)
    | |- context [Storage.get ?a ?b ?c] =>
        destruct (Storage.get a b c) as [[? |] ?]
    | |- context [Storage.del ?a ?b] => destruct (Storage.del a b)
    | |- context [Storage.exists_ ?a ?b ?c] =>
        destruct (Storage.exists_ a b c)
    | |- context [Storage.expire ?a ?b ?c ?d] =>
        destruct (Storage.expire a b c d)
    | |- context [Storage.lpush ?a ?b ?c] =>
        destruct (Storage.lpush a b c) as [[|] ?]
    | |- context [Storage.rpush ?a ?b ?c] =>
        destruct (Storage.rpush a b c) as [[|] ?]
    | |- context [Storage.lpop ?a ?b] =>
        destruct (Storage.lpop a b) as [[? |] ?]
    | |- context [Storage.rpop ?a ?b] =>
        destruct (Storage.rpop a b) as [[? |] ?]
    | |- context [Storage.sadd ?a ?b ?c] => destruct (Storage.sadd a b c)
    | |- context [Storage.srem ?a ?b ?c] => destruct (Storage.srem a b c)
    | |- context [Storage.smembers ?a ?b] =>
        destruct (Storage.smembers a b) as [? |]
    end.

(** X22.  The dispatcher answers every request: whatever the command, the
    arguments and the store, [execute_command] returns a response, except
    that an LRANGE needs the list at its key, if there is one, to be
    non-empty and shorter than 2^31. *)
Theorem dispatcher_always_replies (now : Z) (req : Request) (st : Storage.t) :
  (command req = CMD_LRANGE →
   ∀ l e, st !! arg req 0 = Some (mkValue (ListData l) e) →
          l ≠ [] ∧ Z.of_nat (length l) <= 2147483647) →
  ∃ resp st' calls,
    execute_command now req st = Returns (resp, st', calls).
Proof.
  intros Hlrange. unfold execute_command.
  destruct (command req) eqn:Hc;
    try (destruct (decide _); [by do 3 eexists |]);
    try (by do 3 eexists);
    unfold mbind, Exec_bind, invoke, query, query_partial;
    try (match goal with
         | |- context [Storage.lrange] => fail 1
         | _ => storage_cases; by do 3 eexists
         end).
  destruct (stoi (arg req 1)) as [start |]; [| by do 3 eexists].
  destruct (stoi (arg req 2)) as [stop |]; [| by do 3 eexists].
  destruct (st !! arg req 0) as [[[s | l | s] e] |] eqn:Hk.
  - rewrite (lrange_string _ start stop st s e Hk). by do 3 eexists.
  - destruct (Hlrange eq_refl l e eq_refl) as [Hne Hlen].
    destruct (lrange_nonempty_defined _ start stop st l e Hk Hne Hlen)
      as [items ->].
    by do 3 eexists.
  - unfold Storage.lrange. rewrite Hk; cbn [data]. by do 3 eexists.
  - rewrite (lrange_absent _ start stop st Hk). by do 3 eexists.
Qed.

Lemma dispatcher_always_replies_witness :
  ∃ resp st' calls,
    execute_command 5 (mkRequest CMD_LRANGE ["l"; "0"; "5"]) three_variant_store
    = Returns (resp, st', calls).
Proof.
  apply (dispatcher_always_replies 5 (mkRequest CMD_LRANGE ["l"; "0"; "5"])
           three_variant_store).
  intros _ l e Hk. change (arg _ 0) with "l" in Hk.
  assert (Hl : three_variant_store !! "l"
               = Some (mkValue (ListData ["a"]) (-1))) by reflexivity.
  rewrite Hl in Hk. injection Hk as <- <-. split; [done | simpl; lia].
Defined.

(** X23.  LPUSH and RPUSH on a key that holds a list of fewer than
    2^31 - 1 elements reply with the new length in decimal, after one push
    and one [llen] on the store. *)
Theorem push_replies_new_length (now e : Z) (k v : string) (l : list string)
    (st : Storage.t) :
  st !! k = Some (mkValue (ListData l) e) →
  Z.of_nat (length l) < 2147483647 →
  execute_command now (mkRequest CMD_LPUSH [k; v]) st
  = Returns (Response_string OK (to_string (Z.of_nat (length l) + 1)),
             <[k := mkValue (ListData (v :: l)) e]> st,
             [call_lpush k v; call_llen k])
  ∧ execute_command now (mkRequest CMD_RPUSH [k; v]) st
    = Returns (Response_string OK (to_string (Z.of_nat (length l) + 1)),
               <[k := mkValue (ListData (l ++ [v])) e]> st,
               [call_rpush k v; call_llen k]).
Proof.
  intros Hk Hlen. split; dispatch.
  - rewrite (lpush_list k v st l e Hk); simpl.
    rewrite (llen_lookup k _ (v :: l) e) by apply lookup_insert_eq.
    cbn [length]. rewrite static_cast_int_small by lia.
    by replace (Z.of_nat (S (length l))) with (Z.of_nat (length l) + 1) by lia.
  - rewrite (rpush_list k v st l e Hk); simpl.
    rewrite (llen_lookup k _ (l ++ [v]) e) by apply lookup_insert_eq.
    rewrite length_app; cbn [length]. rewrite static_cast_int_small by lia.
    by replace (Z.of_nat (length l + 1)) with (Z.of_nat (length l) + 1) by lia.
Qed.

Lemma push_replies_new_length_witness :
  execute_command 5 (mkRequest CMD_RPUSH ["l"; "z"]) three_variant_store
  = Returns (Response_string OK "2",
             <["l" := mkValue (ListData ["a"; "z"]) (-1)]> three_variant_store,
             [call_rpush "l" "z"; call_llen "l"]).
Proof.
  destruct (push_replies_new_length 5 (-1) "l" "z" ["a"] three_variant_store)
    as [_ Hr]; [reflexivity | simpl; lia | exact Hr].
Defined.

(** ** Server: the command loop of a connection *)

Lemma no_newline_snoc line c :
  no_newline line → Ascii.eqb c LF = false →
  no_newline (line +:+ String c "").
Proof.
  intros Hl Hc. unfold no_newline. rewrite list_ascii_app.
  apply Forall_app. split; [done |].
  apply Forall_cons_2; [done | apply Forall_nil_2].
Qed.

Lemma no_newline_app s t : no_newline s → no_newline t → no_newline (s +:+ t).
Proof.
  intros Hs Ht. unfold no_newline. rewrite list_ascii_app.
  by apply Forall_app.
Qed.

(** Bytes without a line feed only extend the line being searched. *)
Lemma process_lines_no_newline now line body rest (st : Storage.t) :
  no_newline body →
  process_lines now line (body +:+ rest) st
  = process_lines now (line +:+ body) rest st.
Proof.
  revert line. induction body as [|c body IH]; intros line Hbody.
  - by rewrite append_empty_r.
  - change (String c body +:+ rest) with (String c (body +:+ rest)).
    apply Forall_cons in Hbody as [Hc Hbody]. cbn [process_lines].
    rewrite Hc, IH by done. by rewrite append_assoc.
Qed.

Lemma find_newline_none s : find_newline s = None ↔ no_newline s.
Proof.
  induction s as [|c s IH]; [by split; [intros; apply Forall_nil_2 |] |].
  simpl. destruct (Ascii.eqb c LF) eqn:Hc.
  - split; [done |]. intros H. apply Forall_cons in H as [H _]. congruence.
  - destruct (find_newline s) as [[line rest] |].
    + split; [done |]. intros H. apply Forall_cons in H as [_ H].
      by apply IH in H.
    + split; [| done]. intros _. apply Forall_cons_2; [done | by apply IH].
Qed.

Lemma find_newline_some s line rest :
  find_newline s = Some (line, rest) →
  s = line +:+ String LF rest ∧ no_newline line.
Proof.
  revert line. induction s as [|c s IH]; intros line; [done |].
  simpl. destruct (Ascii.eqb_spec c LF) as [-> | Hc].
  - intros [= <- <-]. split; [done | apply Forall_nil_2].
  - destruct (find_newline s) as [[line' rest'] |]; [| done].
    intros [= <- <-]. destruct (IH line' eq_refl) as [-> Hl].
    split; [done |]. apply Forall_cons_2; [| done].
    by apply Ascii.eqb_neq.
Qed.

(** The loop as the source writes it: cut the accumulator at its first
    line feed, handle the line, and go on with what follows unless the
    line was a QUIT; without a line feed, keep the accumulator. *)
Lemma process_lines_loop now accumulated (st : Storage.t) :
  process_lines now "" accumulated st
  = match find_newline accumulated with
    | None => Returns ([], Open accumulated, st)
    | Some (line, rest) =>
        '(sent, go_on, st') ← handle_line now line st;
        if go_on : bool then
          '(sent', conn, st'') ← process_lines now "" rest st';
          mret (sent ++ sent', conn, st'')
        else mret (sent, Closed, st')
    end.
Proof.
  destruct (find_newline accumulated) as [[line rest] |] eqn:Hf.
  - apply find_newline_some in Hf as [-> Hline].
    by rewrite process_lines_no_newline by done.
  - apply find_newline_none in Hf.
    rewrite <- (append_empty_r accumulated) at 1.
    by rewrite process_lines_no_newline by done.
Qed.

Lemma process_lines_append now line a b (st : Storage.t) :
  process_lines now line (a +:+ b) st
  = and_then (process_lines now line a st)
      (λ rem st', process_lines now rem b st').
Proof.
  revert line st. induction a as [|c a IH]; intros line st.
  - change ("" +:+ b) with b. cbn [process_lines and_then].
    by destruct (process_lines now line b st) as [[[sent conn] st'] |].
  - change (String c a +:+ b) with (String c (a +:+ b)).
    cbn [process_lines]. destruct (Ascii.eqb c LF); [| apply IH].
    unfold mbind, outcome_bind, mret, outcome_ret.
    destruct (handle_line now line st) as [[[sent go_on] st1] |]; [| done].
    destruct go_on; [| done]. rewrite IH. unfold and_then.
    destruct (process_lines now "" a st1) as [[[sent1 [rem |]] st2] |];
      [| done | done].
    destruct (process_lines now rem b st2) as [[[sent2 conn] st3] |];
      [| done].
    by rewrite app_assoc.
Qed.

Lemma process_lines_leftover now line a (st st' : Storage.t) sent rem :
  no_newline line →
  process_lines now line a st = Returns (sent, Open rem, st') →
  no_newline rem.
Proof.
  revert line st sent. induction a as [|c a IH]; intros line st sent Hline.
  - by intros [= _ <- _].
  - cbn [process_lines]. destruct (Ascii.eqb c LF) eqn:Hc.
    + unfold mbind, outcome_bind, mret, outcome_ret.
      destruct (handle_line now line st) as [[[sent1 go_on] st1] |];
        [| done].
      destruct go_on; [| done].
      destruct (process_lines now "" a st1) as [[[sent2 conn] st2] |] eqn:Hp;
        [| done].
      intros [= _ -> ->]. eapply (IH "" st1 sent2); [apply Forall_nil_2 |].
      exact Hp.
    + apply IH. by apply no_newline_snoc.
Qed.

Lemma c_str_append a b : no_zero a → c_str (a +:+ b) = a +:+ c_str b.
Proof.
  induction a as [|c a IH]; intros Ha; [done |].
  change (String c a +:+ b) with (String c (a +:+ b)).
  apply Forall_cons in Ha as [Hc Ha]. simpl. rewrite Hc.
  rewrite IH by done. done.
Qed.

Lemma c_str_no_zero a : no_zero a → c_str a = a.
Proof.
  intros Ha. rewrite <- (append_empty_r a) at 1.
  rewrite c_str_append by done. apply append_empty_r.
Qed.

(** X24.  How the bytes of a connection are cut into chunks by the
    network does not matter: receiving [a] followed by [b] in one chunk
    sends the same responses, in the same order, and leaves the same store
    and the same unfinished line behind as receiving [a] and then [b]; once
    a QUIT has closed the connection nothing that follows is looked at.
    (The accumulator never holds a line feed; [a] holds no zero byte.) *)
Theorem chunking_is_irrelevant (now : Z) (a b accumulated : string)
    (st : Storage.t) :
  no_newline accumulated → no_zero a →
  receive now (a +:+ b) accumulated st
  = and_then (receive now a accumulated st)
      (λ rem st', receive now b rem st')
  ∧ (∀ sent rem st', receive now a accumulated st
                     = Returns (sent, Open rem, st') → no_newline rem).
Proof.
  intros Hacc Ha. unfold receive. split.
  - rewrite c_str_append, <- append_assoc by done.
    rewrite process_lines_append, (c_str_no_zero a) by done.
    destruct (process_lines now "" (accumulated +:+ a) st)
      as [[[sent [rem |]] st1] |] eqn:Hp; [| done | done].
    cbn [and_then].
    apply process_lines_leftover in Hp; [| apply Forall_nil_2].
    by rewrite (process_lines_no_newline now "" rem (c_str b)).
  - intros sent rem st' Hp.
    by apply process_lines_leftover in Hp; [| apply Forall_nil_2].
Qed.

Lemma chunking_is_irrelevant_witness :
  receive 0 ("GET k" +:+ String CR (String LF "PI")) "" plain_string_store
  = and_then (receive 0 ("GET k" +:+ String CR "") "" plain_string_store)
      (λ rem st', receive 0 (String LF "PI") rem st').
Proof.
  apply (chunking_is_irrelevant 0 ("GET k" +:+ String CR "") (String LF "PI")
           "" plain_string_store).
  - apply Forall_nil_2.
  - unfold no_zero. vm_compute list_ascii_of_string.
    repeat (apply Forall_cons_2; [reflexivity |]). apply Forall_nil_2.
Defined.

(** X25.  A line whose command is QUIT is answered with the bulk string
    "Goodbye" and closes the connection: the store is untouched and
    whatever follows the line in the accumulator is never executed. *)
Theorem quit_closes_connection (now : Z) (line rest : string)
    (st : Storage.t) :
  no_newline line → strip_cr line ≠ "" →
  command (parse_request (strip_cr line)) = CMD_QUIT →
  process_lines now "" (line +:+ String LF rest) st
  = Returns (["$7" +:+ CRLF +:+ "Goodbye" +:+ CRLF], Closed, st).
Proof.
  intros Hline Hne Hquit.
  rewrite process_lines_no_newline by done. change ("" +:+ line) with line.
  cbn [process_lines]. change (Ascii.eqb LF LF) with true. cbn match.
  unfold handle_line. destruct (strip_cr line) as [| c l] eqn:Hs; [done |].
  unfold execute_command. rewrite Hquit.
  unfold mbind, outcome_bind, mret, outcome_ret, Exec_ret. cbn.
  by rewrite bool_decide_eq_true_2.
Qed.

Lemma quit_closes_connection_witness :
  process_lines 0 "" ("quit" +:+ String CR (String LF "SET a b"))
    plain_string_store
  = Returns (["$7" +:+ CRLF +:+ "Goodbye" +:+ CRLF], Closed,
             plain_string_store).
Proof.
  pose proof (quit_closes_connection 0 ("quit" +:+ String CR "") "SET a b"
                plain_string_store) as H.
  apply H.
  - unfold no_newline. vm_compute list_ascii_of_string.
    repeat (apply Forall_cons_2; [reflexivity |]). apply Forall_nil_2.
  - discriminate.
  - reflexivity.
Defined.

(** X26.  Nothing is answered before a line is complete, and blank lines
    are not answered at all: bytes without a line feed are only added to
    the accumulator, and a line that is empty or a lone carriage return is
    skipped. *)
Theorem no_reply_without_a_line (now : Z) (chunk accumulated rest : string)
    (st : Storage.t) :
  (no_newline accumulated → no_newline (c_str chunk) →
   receive now chunk accumulated st
   = Returns ([], Open (accumulated +:+ c_str chunk), st))
  ∧ process_lines now "" (String LF rest) st = process_lines now "" rest st
  ∧ process_lines now "" (String CR (String LF rest)) st
    = process_lines now "" rest st.
Proof.
  split; [| split].
  - intros Hacc Hchunk. unfold receive.
    rewrite <- (append_empty_r (accumulated +:+ c_str chunk)) at 1.
    rewrite process_lines_no_newline by (by apply no_newline_app).
    done.
  - cbn [process_lines]. change (Ascii.eqb LF LF) with true. cbn match.
    unfold handle_line, mbind, outcome_bind, mret, outcome_ret; cbn.
    by destruct (process_lines now "" rest st) as [[[sent conn] st'] |].
  - cbn [process_lines]. change (Ascii.eqb CR LF) with false.
    change (Ascii.eqb LF LF) with true. cbn match.
    unfold handle_line, mbind, outcome_bind, mret, outcome_ret.
    change (strip_cr ("" +:+ String CR "")) with "". cbn.
    by destruct (process_lines now "" rest st) as [[[sent conn] st'] |].
Qed.

Lemma no_reply_without_a_line_witness :
  receive 0 "GET " "" plain_string_store
  = Returns ([], Open "GET ", plain_string_store).
Proof.
  destruct (no_reply_without_a_line 0 "GET " "" "" plain_string_store)
    as [H _].
  apply H; [apply Forall_nil_2 |].
  unfold no_newline. vm_compute list_ascii_of_string.
  repeat (apply Forall_cons_2; [reflexivity |]). apply Forall_nil_2.
Defined.

(** X27.  A zero byte in a received chunk cuts the chunk short: the bytes
    that follow it in the same chunk are dropped, commands included. *)
Theorem zero_byte_truncates_chunk (now : Z) (a b accumulated : string)
    (st : Storage.t) :
  no_zero a →
  c_str (a +:+ String zero b) = a
  ∧ receive now (a +:+ String zero b) accumulated st
    = receive now a accumulated st.
Proof.
  intros Ha.
  assert (H : c_str (a +:+ String zero b) = a).
  { rewrite c_str_append by done. change (c_str (String zero b)) with "".
    apply append_empty_r. }
  split; [done |]. unfold receive. by rewrite H, c_str_no_zero.
Qed.

Lemma zero_byte_truncates_chunk_witness :
  receive 0 ("PING" +:+ String zero (String LF "")) "" plain_string_store
  = receive 0 "PING" "" plain_string_store.
Proof.
  destruct (zero_byte_truncates_chunk 0 "PING" (String LF "") ""
              plain_string_store) as [_ H]; [| exact H].
  unfold no_zero. vm_compute list_ascii_of_string.
  repeat (apply Forall_cons_2; [reflexivity |]). apply Forall_nil_2.
Defined.

(** ** Persistence: what the snapshot file keeps and what a load restores *)

Lemma read_short n input :
  (String.length input < n)%nat → read n input = Undefined.
Proof.
  revert input. induction n as [|n IH]; intros input Hlen; [lia |].
  destruct input as [|c input]; [done |].
  simpl in *. by rewrite IH by lia.
Qed.

(** X28.  The snapshot file keeps values of all three variants: for a
    value whose sizes and expiration instant fit the eight-byte fields,
    [deserialize_value] reads back from the bytes [serialize_value] wrote
    exactly that value, payload and expiration included, and stops at the
    first byte after it; a key is read back in the same way. *)
Theorem value_survives_file (v : Value) (key os rest : string) :
  fits_fields v → Z.of_nat (String.length key) < 2 ^ 64 →
  serialize_value os v = os +:+ serialize_value "" v
  ∧ deserialize_value (serialize_value "" v +:+ rest) = Returns (Some v, rest)
  ∧ read_string (write_size (String.length key) +:+ key +:+ rest)
    = Returns (key, rest).
Proof.
  intros Hv Hkey.
  split; [apply serialize_value_append |].
  split; [by apply deserialize_serialize_value | by apply read_string_append].
Qed.

Lemma value_survives_file_witness :
  deserialize_value
    (serialize_value "" (mkValue (SetData {["m"]}) 50) +:+ "tail")
  = Returns (Some (mkValue (SetData {["m"]}) 50), "tail").
Proof.
  destruct (value_survives_file (mkValue (SetData {["m"]}) 50) "k" "" "tail")
    as (_ & H & _); [| done | exact H].
  split; [simpl; lia |]. cbn [data]. split; [done |].
  rewrite elements_singleton.
  apply Forall_cons_2; [done | apply Forall_nil_2].
Defined.

(** X29.  For a store without expired entries whose contents fit the
    fields of the file, loading at clock reading [now] what was saved at
    the same reading is defined and restores the Strings only: a key
    holding a List or a Set is gone, a String without expiry or with an
    expiration less than 2^31 seconds ahead comes back unchanged, a String
    due to expire at [now] itself comes back without expiry, and no other
    key appears. *)
Theorem load_restores_strings_only (now : Z) (st st0 : Storage.t) :
  Z.of_nat (size st) < 2 ^ 64 →
  (∀ k v, st !! k = Some v →
          is_expired now v = false ∧ fits_fields v
          ∧ Z.of_nat (String.length k) < 2 ^ 64) →
  ∃ st', load_snapshot now (save_snapshot now st) st0 = Returns st'
    ∧ (∀ k v, st !! k = Some v → type v ≠ STRING → st' !! k = None)
    ∧ (∀ k s e, st !! k = Some (mkValue (StringData s) e) →
                e = -1 ∨ (now < e ∧ e - now <= 2147483647) →
                st' !! k = Some (mkValue (StringData s) e))
    ∧ (∀ k s, st !! k = Some (mkValue (StringData s) now) → now ≠ -1 →
              st' !! k = Some (mkValue (StringData s) (-1)))
    ∧ (∀ k, st !! k = None → st' !! k = None).
Proof.
  intros Hsize Hst.
  destruct (load_save_snapshot now st st0 Hsize Hst) as (st' & Hload & Hk).
  exists st'. split; [done |].
  split; [| split; [| split]]; intros k.
  - intros v Hv Hty. rewrite Hk, Hv; simpl. by apply restored_list_or_set.
  - intros s e Hv [-> | [Hlt Hint]]; rewrite Hk, Hv; simpl.
    + done.
    + by apply restored_string.
  - intros s Hv Hne. rewrite Hk, Hv; simpl.
    unfold restored, restored_expiry; cbn [data expires_at].
    destruct (Z.eqb_spec now (-1)); [done |].
    rewrite Z.sub_diag. by change (static_cast_int 0) with 0.
  - intros Hv. by rewrite Hk, Hv.
Qed.

Lemma load_restores_strings_only_witness :
  ∃ st', load_snapshot 10 (save_snapshot 10 three_variant_store) ∅
         = Returns st'
         ∧ st' !! "l" = None
         ∧ st' !! "t" = Some (mkValue (StringData "v") 50).
Proof.
  destruct (load_restores_strings_only 10 three_variant_store ∅)
    as (st' & Hload & Hdrop & Hkeep & _).
  - vm_compute. reflexivity.
  - intros k v. unfold three_variant_store.
    rewrite !lookup_insert, lookup_singleton.
    repeat case_decide; try done; subst k; intros [= <-];
      (split; [reflexivity |]); (split; [| simpl; lia]);
      (split; [simpl; lia |]); cbn [data]; try (simpl; lia).
    + split; [simpl; lia |].
      apply Forall_cons_2; [simpl; lia | apply Forall_nil_2].
    + split; [rewrite size_singleton; lia |].
      rewrite elements_singleton.
      apply Forall_cons_2; [simpl; lia | apply Forall_nil_2].
  - exists st'. split; [exact Hload |]. split.
    + by apply (Hdrop "l" (mkValue (ListData ["a"]) (-1))).
    + apply (Hkeep "t" "v" 50); [reflexivity | right; lia].
Defined.

Lemma read_buffer_cut fill part lost :
  read_buffer fill (String.length (part +:+ lost)) part
  = (part +:+ filled fill (String.length lost), "").
Proof.
  induction part as [|c part IH].
  - change ("" +:+ lost) with lost. by destruct (String.length lost).
  - change (String c part +:+ lost) with (String c (part +:+ lost)).
    cbn [String.length read_buffer]. by rewrite IH.
Qed.

(** A file whose only entry is a String without expiry, cut anywhere
    inside the bytes of the string, loads with the bytes that are lost as
    zero bytes. *)
Lemma load_cut_string now key part lost (st : Storage.t) :
  Z.of_nat (String.length key) < 2 ^ 64 →
  Z.of_nat (String.length (part +:+ lost)) < 2 ^ 64 →
  load_snapshot now
    (write_size 1 +:+ write_size (String.length key) +:+ key
     +:+ write_le 1 (type_byte STRING) +:+ write_time (-1)
     +:+ write_size (String.length (part +:+ lost)) +:+ part) st
  = Returns {[key := mkValue
                       (StringData
                          (part +:+ filled zero (String.length lost)))
                       (-1)]}.
Proof.
  intros Hkey Hn. unfold load_snapshot.
  rewrite read_size_write_size by done.
  unfold mbind at 1, outcome_bind at 1. cbn [load_entries].
  rewrite read_string_append by done.
  unfold mbind at 1, outcome_bind at 1.
  rewrite deserialize_value_header by lia.
  unfold read_string.
  rewrite read_size_write_size by done.
  unfold mbind, outcome_bind, mret, outcome_ret.
  rewrite read_buffer_cut.
  unfold restore_entry, Storage.set, Storage.clear; cbn.
  by rewrite insert_empty.
Qed.

(** X30.  Whatever bytes the file holds, a load that is defined leaves
    only String values in the store, and the previous contents of the store
    play no part; a file whose only entry is a String without expiry, cut
    anywhere inside the bytes of that string, still loads, with the bytes
    that are lost as zero bytes; a file of fewer than eight bytes, an empty
    one included, has no defined load, because the entry count is used
    without having been read. *)
Theorem load_of_any_file (now : Z) (file : string) (st st' : Storage.t) :
  (load_snapshot now file st = Returns st' →
   (∀ k v, st' !! k = Some v → type v = STRING)
   ∧ load_snapshot now file ∅ = Returns st')
  ∧ (∀ key part lost,
       Z.of_nat (String.length key) < 2 ^ 64 →
       Z.of_nat (String.length (part +:+ lost)) < 2 ^ 64 →
       load_snapshot now
         (write_size 1 +:+ write_size (String.length key) +:+ key
          +:+ write_le 1 (type_byte STRING) +:+ write_time (-1)
          +:+ write_size (String.length (part +:+ lost)) +:+ part) st
       = Returns {[key := mkValue
                            (StringData
                               (part +:+ filled zero (String.length lost)))
                            (-1)]})
  ∧ ((String.length file < 8)%nat → load_snapshot now file st = Undefined).
Proof.
  split; [| split].
  - intros Hload. split; [by apply (load_snapshot_strings now file st) |].
    exact Hload.
  - intros key part lost. apply load_cut_string.
  - intros Hshort. unfold load_snapshot, read_size.
    by rewrite read_short.
Qed.

Lemma load_of_any_file_witness :
  load_snapshot 0 "short" plain_string_store = Undefined
  ∧ load_snapshot 0
      (write_size 1 +:+ write_size 1 +:+ "t"
       +:+ write_le 1 (type_byte STRING) +:+ write_time (-1)
       +:+ write_size 5 +:+ "hel") plain_string_store
    = Returns {["t" := mkValue (StringData ("hel" +:+ filled zero 2)) (-1)]}.
Proof.
  destruct (load_of_any_file 0 "short" plain_string_store ∅)
    as (_ & Hcut & Hshort).
  split; [apply Hshort; simpl; lia |].
  apply (Hcut "t" "hel" "lo"); vm_compute; reflexivity.
Defined.
